(** * Inquiry Cup: the script validator, the match clock and the match engine

    A shallow embedding of [src/types/*.ts], [src/engine/clock.ts],
    [src/engine/validator.ts] and [src/engine/engine.ts].

    Conventions of the embedding:
    - a JavaScript [number] is an integer ([Z]); the code under study only
      compares numbers, copies them, adds one to a score and prints them;
    - a JavaScript string is held as the bytes of its UTF-8 encoding, so that
      equality of strings is equality of byte sequences, while [s.length]
      counts UTF-16 code units ([jsLength]);
    - an optional field ([actor?: string]) is an [option]; JavaScript
      truthiness of such a field ([if (event.actor)]) is written out by
      [truthy]: a field that is absent, or present and empty, is falsy;
    - the player table [Map<string, PlayerState>] is a [gmap string PlayerState];
      in-place mutation of a record found in it is an [alter] or an insert
      on the table, threaded through the state;
    - the engine's private [state] is passed explicitly. *)

From Stdlib Require Import ZArith String Ascii List DecimalString DecimalNat DecimalZ.
From stdpp Require Import base option list strings gmap fin_maps.

Open Scope string_scope.
Open Scope Z_scope.

(** ** Domain types ([types/events.ts], [types/match.ts], [types/state.ts]) *)

Record PitchPosition := mkPos { x : Z; y : Z }.

Inductive EventType :=
| whistle | dead_ball
| speak | announce | comment
| pass | intercept | hold
| move | exit
| card | penalty | goal
| pause | halftime_marker | fulltime_marker.

Inductive CardType := yellow | red.

Inductive PositionRole := role_tender | role_defender | role_midfielder | role_forward.

Record Player := mkPlayer {
  name : string;
  role : PositionRole;
  voice : string;
}.

Record Team := mkTeam {
  code : string;
  team_name : string;
  tender : Player;
  field : list Player;
}.

Record Official := mkOfficial {
  official_name : string;
  official_voice : string;
}.

Record Officials := mkOfficials {
  referee : Official;
  pbp : Official;
  color : Official;
}.

Record MatchMeta := mkMeta {
  id : string;
  season : Z;
  title : string;
  home : Team;
  away : Team;
  officials : Officials;
}.

(** [MatchEvent]: one flat record, every field but [minute] and [type]
    optional.  [reason] is the union of the whistle reasons and free text,
    hence a string. *)
Record MatchEvent := mkEvent {
  minute : Z;
  added : option Z;
  type : EventType;
  actor : option string;
  text : option string;
  tone : option string;
  pause_ms : option Z;
  from : option string;
  to : option string;
  position : option PitchPosition;
  ev_card : option CardType;
  reason : option string;
  direction : option string;
}.

Record MatchScript := mkScript {
  match_ : MatchMeta;
  events : list MatchEvent;
}.

Inductive Side := side_home | side_away.

Record PlayerState := mkPlayerState {
  player : Player;
  team : Side;
  ps_position : PitchPosition;
  hasBall : bool;
  onPitch : bool;
  cards : list CardType;
}.

Record BallState := mkBall {
  holder : option string;
  ball_position : PitchPosition;
  dead : bool;
}.

Record Score := mkScore { score_home : Z; score_away : Z }.

Inductive MatchPeriod := pre | first_half | halftime | second_half | fulltime.

Record ClockState := mkClock {
  clock_minute : Z;
  clock_added : Z;
  period : MatchPeriod;
}.

Record MatchState := mkState {
  meta : MatchMeta;
  clock : ClockState;
  score : Score;
  ball : BallState;
  players : gmap string PlayerState;
  eventIndex : nat;
  totalEvents : nat;
}.

Global Instance PitchPosition_eq_dec : EqDecision PitchPosition.
Proof. solve_decision. Defined.
Global Instance CardType_eq_dec : EqDecision CardType.
Proof. solve_decision. Defined.
Global Instance EventType_eq_dec : EqDecision EventType.
Proof. solve_decision. Defined.
Global Instance MatchPeriod_eq_dec : EqDecision MatchPeriod.
Proof. solve_decision. Defined.
Global Instance Side_eq_dec : EqDecision Side.
Proof. solve_decision. Defined.

(** [defaultPositions(team)] of [types/state.ts]. *)
Record Formation := mkFormation {
  f_tender : PitchPosition;
  f_defender : PitchPosition;
  f_midfielder_left : PitchPosition;
  f_midfielder_right : PitchPosition;
  f_forward : PitchPosition;
}.

Definition defaultPositions (t : Side) : Formation :=
  let sign := match t with side_home => -1 | side_away => 1 end in
  {| f_tender := mkPos (sign * 46) 0;
     f_defender := mkPos (sign * 30) 0;
     f_midfielder_left := mkPos (sign * 15) (-12);
     f_midfielder_right := mkPos (sign * 15) 12;
     f_forward := mkPos (sign * 5) 0 |}.

(** ** JavaScript truthiness of an optional string *)

Definition nonempty (s : string) : bool :=
  match s with EmptyString => false | String _ _ => true end.

Definition truthy (o : option string) : bool :=
  match o with Some s => nonempty s | None => false end.

(** ** The clock ([engine/clock.ts]) *)

Definition derivePeriod (minute : Z) (currentPeriod : MatchPeriod) : MatchPeriod :=
  if bool_decide (currentPeriod = pre) && (minute =? 0) then first_half
  else if bool_decide (currentPeriod = halftime) then second_half
  else if minute <=? 45 then first_half
  else second_half.

Definition advanceClock (current : ClockState) (minute : Z) (added : option Z)
  : ClockState :=
  let period := derivePeriod minute (period current) in
  {| clock_minute := minute;
     clock_added := default 0 added;
     period := period |}.

Definition initialClock : ClockState :=
  {| clock_minute := 0; clock_added := 0; period := pre |}.

(** ** The engine ([engine/engine.ts]) *)

(** Field-wise updates of the mutable records. *)
Definition set_hasBall (b : bool) (ps : PlayerState) : PlayerState :=
  {| player := player ps; team := team ps; ps_position := ps_position ps;
     hasBall := b; onPitch := onPitch ps; cards := cards ps |}.

Definition set_onPitch (b : bool) (ps : PlayerState) : PlayerState :=
  {| player := player ps; team := team ps; ps_position := ps_position ps;
     hasBall := hasBall ps; onPitch := b; cards := cards ps |}.

Definition set_position (p : PitchPosition) (ps : PlayerState) : PlayerState :=
  {| player := player ps; team := team ps; ps_position := p;
     hasBall := hasBall ps; onPitch := onPitch ps; cards := cards ps |}.

Definition push_card (c : CardType) (ps : PlayerState) : PlayerState :=
  {| player := player ps; team := team ps; ps_position := ps_position ps;
     hasBall := hasBall ps; onPitch := onPitch ps; cards := cards ps ++ [c] |}.

Definition set_holder (h : option string) (b : BallState) : BallState :=
  {| holder := h; ball_position := ball_position b; dead := dead b |}.

Definition set_ball_position (p : PitchPosition) (b : BallState) : BallState :=
  {| holder := holder b; ball_position := p; dead := dead b |}.

Definition set_dead (d : bool) (b : BallState) : BallState :=
  {| holder := holder b; ball_position := ball_position b; dead := d |}.

Definition set_period (p : MatchPeriod) (c : ClockState) : ClockState :=
  {| clock_minute := clock_minute c; clock_added := clock_added c; period := p |}.

Definition with_clock (c : ClockState) (st : MatchState) : MatchState :=
  {| meta := meta st; clock := c; score := score st; ball := ball st;
     players := players st; eventIndex := eventIndex st;
     totalEvents := totalEvents st |}.

Definition with_score (s : Score) (st : MatchState) : MatchState :=
  {| meta := meta st; clock := clock st; score := s; ball := ball st;
     players := players st; eventIndex := eventIndex st;
     totalEvents := totalEvents st |}.

Definition with_ball (b : BallState) (st : MatchState) : MatchState :=
  {| meta := meta st; clock := clock st; score := score st; ball := b;
     players := players st; eventIndex := eventIndex st;
     totalEvents := totalEvents st |}.

Definition with_players (m : gmap string PlayerState) (st : MatchState) : MatchState :=
  {| meta := meta st; clock := clock st; score := score st; ball := ball st;
     players := m; eventIndex := eventIndex st;
     totalEvents := totalEvents st |}.

Definition with_eventIndex (i : nat) (st : MatchState) : MatchState :=
  {| meta := meta st; clock := clock st; score := score st; ball := ball st;
     players := players st; eventIndex := i;
     totalEvents := totalEvents st |}.

Definition center : PitchPosition := mkPos 0 0.

(** [homeFieldPositions[i]] inside [forEach].  A script that went through
    [MatchScriptSchema] has exactly four field players per team, so the index
    is always in range on the engine's inputs; out of range JavaScript answers
    [undefined], for which the embedding puts the centre spot.  The properties
    below that speak of an initial position assume four field players. *)
Definition fieldPosition (slots : list PitchPosition) (i : nat) : PitchPosition :=
  default center (slots !! i).

Definition newPlayerState (p : Player) (t : Side) (pos : PitchPosition) : PlayerState :=
  {| player := p; team := t; ps_position := pos;
     hasBall := false; onPitch := true; cards := [] |}.

(** [field.forEach((p, i) => players.set(p.name, ...))]: the list is walked
    from index [i] on, later entries overwrite earlier ones of the same name. *)
Fixpoint setFieldPlayers (t : Side) (slots : list PitchPosition) (i : nat)
    (fld : list Player) (m : gmap string PlayerState) : gmap string PlayerState :=
  match fld with
  | [] => m
  | p :: rest =>
      setFieldPlayers t slots (S i) rest
        (<[name p := newPlayerState p t (fieldPosition slots i)]> m)
  end.

Definition fieldSlots (f : Formation) : list PitchPosition :=
  [f_defender f; f_midfielder_left f; f_midfielder_right f; f_forward f].

Definition initializeState (script : MatchScript) : MatchState :=
  let m := match_ script in
  let homePos := defaultPositions side_home in
  let players0 : gmap string PlayerState :=
    <[name (tender (home m)) := newPlayerState (tender (home m)) side_home (f_tender homePos)]> ∅ in
  let players1 := setFieldPlayers side_home (fieldSlots homePos) 0 (field (home m)) players0 in
  let awayPos := defaultPositions side_away in
  let players2 :=
    <[name (tender (away m)) := newPlayerState (tender (away m)) side_away (f_tender awayPos)]> players1 in
  let players3 := setFieldPlayers side_away (fieldSlots awayPos) 0 (field (away m)) players2 in
  {| meta := m;
     clock := initialClock;
     score := {| score_home := 0; score_away := 0 |};
     ball := {| holder := None; ball_position := center; dead := true |};
     players := players3;
     eventIndex := 0;
     totalEvents := length (events script) |}.

(** [giveBall(playerName)]: the current holder's flag is cleared first (when
    [ball.holder] is truthy and names a record; this first half is
    [releaseBall]), then the new holder is looked up; only when that record
    exists are the flag, the holder, the ball position and the live flag
    written. *)
Definition releaseBall (st : MatchState) : MatchState :=
  match holder (ball st) with
  | Some h =>
      if nonempty h
      then with_players (alter (set_hasBall false) h (players st)) st
      else st
  | None => st
  end.

Definition giveBall (playerName : string) (st : MatchState) : MatchState :=
  let st1 := releaseBall st in
  match players st1 !! playerName with
  | Some ps =>
      with_ball {| holder := Some playerName;
                   ball_position := ps_position ps;
                   dead := false |}
        (with_players (<[playerName := set_hasBall true ps]> (players st1)) st1)
  | None => st1
  end.

Definition reason_is (ev : MatchEvent) (r : string) : bool :=
  bool_decide (reason ev = Some r).

(** ball.dead = true; ball.holder = null; ball.position = { x: 0, y: 0 } *)
Definition deadBallAtCenter (st : MatchState) : MatchState :=
  with_ball {| holder := None; ball_position := center; dead := true |} st.

Definition applyEvent (event : MatchEvent) (st : MatchState) : MatchState :=
  match type event with
  | whistle =>
      let st1 :=
        if reason_is event "kickoff" then
          giveBall (name (tender (home (meta st))))
                   (with_ball (set_dead false (ball st)) st)
        else if reason_is event "halftime" || reason_is event "fulltime" then
          deadBallAtCenter st
        else if reason_is event "stoppage" then
          with_ball (set_dead true (ball st)) st
        else if reason_is event "restart" then
          with_ball (set_dead false (ball st)) st
        else st in
      let st2 :=
        if reason_is event "halftime"
        then with_clock (set_period halftime (clock st1)) st1 else st1 in
      if reason_is event "fulltime"
      then with_clock (set_period fulltime (clock st2)) st2 else st2
  | halftime_marker =>
      deadBallAtCenter (with_clock (set_period halftime (clock st)) st)
  | fulltime_marker =>
      with_ball (set_holder None (set_dead true (ball st)))
        (with_clock (set_period fulltime (clock st)) st)
  | pass =>
      match to event with
      | Some n => if nonempty n then giveBall n st else st
      | None => st
      end
  | intercept | hold =>
      match actor event with
      | Some a => if nonempty a then giveBall a st else st
      | None => st
      end
  | move =>
      match actor event, position event with
      | Some a, Some pos =>
          if nonempty a then
            match players st !! a with
            | Some ps => with_players (<[a := set_position pos ps]> (players st)) st
            | None => st
            end
          else st
      | _, _ => st
      end
  | exit =>
      match actor event with
      | Some a =>
          if nonempty a then
            match players st !! a with
            | Some ps =>
                let ps1 := set_onPitch false ps in
                if hasBall ps1 then
                  with_ball (set_holder None (set_dead true (ball st)))
                    (with_players (<[a := set_hasBall false ps1]> (players st)) st)
                else with_players (<[a := ps1]> (players st)) st
            | None => st
            end
          else st
      | None => st
      end
  | card =>
      match actor event, ev_card event with
      | Some a, Some c =>
          if nonempty a then
            match players st !! a with
            | Some ps => with_players (<[a := push_card c ps]> (players st)) st
            | None => st
            end
          else st
      | _, _ => st
      end
  | goal =>
      match actor event with
      | Some a =>
          if nonempty a then
            let st1 :=
              match players st !! a with
              | Some ps =>
                  if bool_decide (team ps = side_home)
                  then with_score {| score_home := score_home (score st) + 1;
                                     score_away := score_away (score st) |} st
                  else with_score {| score_home := score_home (score st);
                                     score_away := score_away (score st) + 1 |} st
              | None => st
              end in
            deadBallAtCenter st1
          else st
      | None => st
      end
  | dead_ball => deadBallAtCenter st
  | speak | announce | comment | penalty | pause => st
  end.

(** One turn of the loop of [run]: cursor, clock, then the event's effect.
    Dispatchers only read the state and the pacing delay only waits, so neither
    appears here. *)
Definition step (i : nat) (event : MatchEvent) (st : MatchState) : MatchState :=
  applyEvent event
    (with_clock (advanceClock (clock st) (minute event) (added event))
       (with_eventIndex i st)).

Fixpoint replayFrom (i : nat) (evs : list MatchEvent) (st : MatchState) : MatchState :=
  match evs with
  | [] => st
  | ev :: rest => replayFrom (S i) rest (step i ev st)
  end.

(** [new MatchEngine(script, options).run()]: the state after the last event. *)
Definition run (script : MatchScript) : MatchState :=
  replayFrom 0 (events script) (initializeState script).

(** States the engine can be in: the initial state of some script, and any
    state obtained from one by a turn of the loop. *)
Inductive reachable (script : MatchScript) : MatchState -> Prop :=
| reach_init : reachable script (initializeState script)
| reach_step i ev st :
    reachable script st -> reachable script (step i ev st).

(** ** Untyped documents and the schema ([zod], [types/*.ts])

    [validateScript] takes an [unknown]: whatever the YAML loader produced.
    The schemas below follow [zod]'s synchronous parser: a parser receives the
    path walked so far and a value, and answers the typed value or a list of
    issues; an object or an array gathers the issues of all its members.  The
    wording of the issues is that of [zod] 3; it is kept for reading the
    error lists and no property below depends on it. *)

#[warnings="-register-all"]
Inductive Raw :=
| RUndefined
| RNull
| RBool (b : bool)
| RNumber (n : Z)
| RString (s : string)
| RArray (items : list Raw)
| RObject (props : list (string * Raw)).

Record ZodIssue := mkIssue {
  issue_path : list string;
  issue_message : string;
}.

Inductive SafeParse (A : Type) :=
| Success (data : A)
| Failure (issues : list ZodIssue).
Arguments Success {A} data.
Arguments Failure {A} issues.

Definition Schema (A : Type) : Type := list string -> Raw -> SafeParse A.

(** Decimal rendering of an index, a length or a minute inside a template
    string. *)
Definition show_nat (n : nat) : string := NilEmpty.string_of_uint (Nat.to_uint n).
Definition show_Z (z : Z) : string := NilZero.string_of_int (Z.to_int z).

Definition parsedType (r : Raw) : string :=
  match r with
  | RUndefined => "undefined"
  | RNull => "null"
  | RBool _ => "boolean"
  | RNumber _ => "number"
  | RString _ => "string"
  | RArray _ => "array"
  | RObject _ => "object"
  end.

Definition invalid_type (expected : string) (path : list string) (r : Raw) : ZodIssue :=
  mkIssue path
    match r with
    | RUndefined => "Required"
    | _ => "Expected " +:+ expected +:+ ", received " +:+ parsedType r
    end.

(** Two parses side by side: the value when both succeed, otherwise the
    issues of both in order. *)
Definition ap {A B : Type} (f : SafeParse (A -> B)) (a : SafeParse A) : SafeParse B :=
  match f, a with
  | Success g, Success v => Success (g v)
  | Success _, Failure js => Failure js
  | Failure es, Success _ => Failure es
  | Failure es, Failure js => Failure (es ++ js)
  end.

Arguments ap {A B} f a : simpl never.

Notation "f <@> a" := (ap f a) (at level 50, left associativity).

(** A value with the issues its checks raised. *)
Definition checked {A : Type} (issues : list ZodIssue) (v : A) : SafeParse A :=
  match issues with
  | [] => Success v
  | _ :: _ => Failure issues
  end.

Definition z_string : Schema string := fun path r =>
  match r with
  | RString s => Success s
  | _ => Failure [invalid_type "string" path r]
  end.

(** A string is held as the bytes of its UTF-8 encoding.  [s.length] counts
    UTF-16 code units: one for a character encoded in one, two or three bytes,
    two (a surrogate pair) for a character encoded in four.  Each character is
    counted at its first byte; continuation bytes count for nothing. *)
Definition utf16Units (c : ascii) : nat :=
  let n := nat_of_ascii c in
  if (n <? 128)%nat then 1%nat
  else if (n <? 192)%nat then 0%nat
  else if (n <? 240)%nat then 1%nat
  else 2%nat.

Fixpoint jsLength (s : string) : nat :=
  match s with
  | EmptyString => 0%nat
  | String c rest => (utf16Units c + jsLength rest)%nat
  end.

(** Text made of ASCII characters only. *)
Fixpoint isAscii (s : string) : bool :=
  match s with
  | EmptyString => true
  | String c rest => (nat_of_ascii c <? 128)%nat && isAscii rest
  end.

Definition upper_ascii (c : ascii) : ascii :=
  let n := nat_of_ascii c in
  if (97 <=? n)%nat && (n <=? 122)%nat then ascii_of_nat (n - 32) else c.

(** [s.toUpperCase()] on ASCII text, where it maps [a]..[z] to [A]..[Z] and
    nothing else.  The Unicode case tables are not part of this development:
    the bytes of other characters are left as they are, which is not what
    JavaScript does for the letters among them, so no property below speaks
    of the upper case of a text that is not ASCII. *)
Fixpoint toUpperCase (s : string) : string :=
  match s with
  | EmptyString => EmptyString
  | String c rest => String (upper_ascii c) (toUpperCase rest)
  end.

(** z.string().length(3).toUpperCase(): the length is checked on the text as
    given, the upper case is taken afterwards. *)
Definition z_code : Schema string := fun path r =>
  match r with
  | RString s =>
      checked
        (if (jsLength s =? 3)%nat then []
         else [mkIssue path "String must contain exactly 3 character(s)"])
        (toUpperCase s)
  | _ => Failure [invalid_type "string" path r]
  end.

Definition is_digit (c : ascii) : bool :=
  let n := nat_of_ascii c in (48 <=? n)%nat && (n <=? 57)%nat.

Fixpoint dropDigits (s : string) : string :=
  match s with
  | String c rest => if is_digit c then dropDigits rest else s
  | EmptyString => EmptyString
  end.

(** The regular expression /^S\d+M\d+$/. *)
Definition matches_id (s : string) : bool :=
  match s with
  | String "S" (String d rest) =>
      is_digit d &&
      match dropDigits rest with
      | String "M" (String e rest') =>
          is_digit e && bool_decide (dropDigits rest' = EmptyString)
      | _ => false
      end
  | _ => false
  end.

(** z.string().regex(/^S\d+M\d+$/, "Format: S1M001") *)
Definition z_id : Schema string := fun path r =>
  match r with
  | RString s =>
      checked (if matches_id s then [] else [mkIssue path "Format: S1M001"]) s
  | _ => Failure [invalid_type "string" path r]
  end.

(** z.number() followed by its checks, each of which reports on its own. *)
Definition z_number (checks : list ((Z -> bool) * string)) : Schema Z := fun path r =>
  match r with
  | RNumber n =>
      checked
        (omap (fun c : (Z -> bool) * string =>
                 if c.1 n then None else Some (mkIssue path c.2)) checks)
        n
  | _ => Failure [invalid_type "number" path r]
  end.

Definition num_min (lo : Z) : (Z -> bool) * string :=
  (fun n => lo <=? n, "Number must be greater than or equal to " +:+ show_Z lo).
Definition num_max (hi : Z) : (Z -> bool) * string :=
  (fun n => n <=? hi, "Number must be less than or equal to " +:+ show_Z hi).
(** [.int()] never fails on the integers of this embedding. *)
Definition num_int : (Z -> bool) * string :=
  (fun _ => true, "Expected integer, received float").
Definition num_positive : (Z -> bool) * string :=
  (fun n => 0 <? n, "Number must be greater than 0").

Definition quoted (s : string) : string := "'" +:+ s +:+ "'".

Definition joinValues (vs : list string) : string :=
  String.concat " | " (map quoted vs).

Fixpoint assoc {A : Type} (k : string) (l : list (string * A)) : option A :=
  match l with
  | [] => None
  | (k', v) :: rest => if String.eqb k k' then Some v else assoc k rest
  end.

(** z.enum([...]) *)
Definition z_enum {A : Type} (values : list (string * A)) : Schema A := fun path r =>
  match r with
  | RString s =>
      match assoc s values with
      | Some v => Success v
      | None =>
          Failure [mkIssue path
            ("Invalid enum value. Expected " +:+ joinValues (map fst values)
             +:+ ", received " +:+ quoted s)]
      end
  | _ => Failure [invalid_type (joinValues (map fst values)) path r]
  end.

(** schema.optional() *)
Definition z_optional {A : Type} (s : Schema A) : Schema (option A) := fun path r =>
  match r with
  | RUndefined => Success None
  | _ => Success Some <@> s path r
  end.

(** [data[key]]: [undefined] when the object has no such key. *)
Definition prop (k : string) (props : list (string * Raw)) : Raw :=
  default RUndefined (assoc k props).

(** One key of the shape of a [z.object]. *)
Definition key {A : Type} (k : string) (s : Schema A)
    (path : list string) (props : list (string * Raw)) : SafeParse A :=
  s (path ++ [k])%list (prop k props).

(** z.object({...}): only an object is looked into; unknown keys are dropped. *)
Definition z_object {A : Type}
    (shape : list string -> list (string * Raw) -> SafeParse A) : Schema A :=
  fun path r =>
    match r with
    | RObject props => shape path props
    | _ => Failure [invalid_type "object" path r]
    end.

Fixpoint parseItems {A : Type} (s : Schema A) (path : list string) (i : nat)
    (items : list Raw) : SafeParse (list A) :=
  match items with
  | [] => Success []
  | r :: rest =>
      Success cons <@> s (path ++ [show_nat i])%list r <@> parseItems s path (S i) rest
  end.

(** z.array(element), with [.length(n)] when [exact] is given: the length
    issue comes first and the elements are parsed all the same. *)
Definition z_array {A : Type} (s : Schema A) (exact : option nat) : Schema (list A) :=
  fun path r =>
    match r with
    | RArray items =>
        let lengthIssue :=
          match exact with
          | Some n =>
              if (length items =? n)%nat then []
              else [mkIssue path
                      ("Array must contain exactly " +:+ show_nat n +:+ " element(s)")]
          | None => []
          end in
        Success (fun (_ : unit) l => l) <@> checked lengthIssue tt
          <@> parseItems s path 0 items
    | _ => Failure [invalid_type "array" path r]
    end.

(** *** The schemas of [types/events.ts] *)

Definition PitchPositionSchema : Schema PitchPosition :=
  z_object (fun path props =>
    Success mkPos
      <@> key "x" (z_number [num_min (-50); num_max 50]) path props
      <@> key "y" (z_number [num_min (-35); num_max 35]) path props).

Definition EventTypeSchema : Schema EventType :=
  z_enum [("whistle", whistle); ("dead_ball", dead_ball);
          ("speak", speak); ("announce", announce); ("comment", comment);
          ("pass", pass); ("intercept", intercept); ("hold", hold);
          ("move", move); ("exit", exit);
          ("card", card); ("penalty", penalty); ("goal", goal);
          ("pause", pause); ("halftime", halftime_marker);
          ("fulltime", fulltime_marker)].

Definition WhistleReason : Schema string :=
  z_enum [("kickoff", "kickoff"); ("halftime", "halftime");
          ("fulltime", "fulltime"); ("stoppage", "stoppage");
          ("restart", "restart")].

Definition CardTypeSchema : Schema CardType :=
  z_enum [("yellow", yellow); ("red", red)].

(** z.union([WhistleReason, z.string()]): the first option that accepts wins;
    when none does the union reports one issue of its own. *)
Definition ReasonSchema : Schema string := fun path r =>
  match WhistleReason path r with
  | Success s => Success s
  | Failure _ =>
      match z_string path r with
      | Success s => Success s
      | Failure _ => Failure [mkIssue path "Invalid input"]
      end
  end.

Definition MatchEventSchema : Schema MatchEvent :=
  z_object (fun path props =>
    Success mkEvent
      <@> key "minute" (z_number [num_min 0; num_max 90]) path props
      <@> key "added" (z_optional (z_number [num_min 0])) path props
      <@> key "type" EventTypeSchema path props
      <@> key "actor" (z_optional z_string) path props
      <@> key "text" (z_optional z_string) path props
      <@> key "tone" (z_optional z_string) path props
      <@> key "pause_ms" (z_optional (z_number [])) path props
      <@> key "from" (z_optional z_string) path props
      <@> key "to" (z_optional z_string) path props
      <@> key "position" (z_optional PitchPositionSchema) path props
      <@> key "card" (z_optional CardTypeSchema) path props
      <@> key "reason" (z_optional ReasonSchema) path props
      <@> key "direction" (z_optional z_string) path props).

(** *** The schemas of [types/match.ts] *)

Definition VoiceSchema : Schema string := z_string.

Definition PositionRoleSchema : Schema PositionRole :=
  z_enum [("tender", role_tender); ("defender", role_defender);
          ("midfielder", role_midfielder); ("forward", role_forward)].

Definition PlayerSchema : Schema Player :=
  z_object (fun path props =>
    Success mkPlayer
      <@> key "name" z_string path props
      <@> key "role" PositionRoleSchema path props
      <@> key "voice" VoiceSchema path props).

Definition TeamSchema : Schema Team :=
  z_object (fun path props =>
    Success mkTeam
      <@> key "code" z_code path props
      <@> key "name" z_string path props
      <@> key "tender" PlayerSchema path props
      <@> key "field" (z_array PlayerSchema (Some 4%nat)) path props).

Definition OfficialSchema : Schema Official :=
  z_object (fun path props =>
    Success mkOfficial
      <@> key "name" z_string path props
      <@> key "voice" VoiceSchema path props).

Definition OfficialsSchema : Schema Officials :=
  z_object (fun path props =>
    Success mkOfficials
      <@> key "referee" OfficialSchema path props
      <@> key "pbp" OfficialSchema path props
      <@> key "color" OfficialSchema path props).

Definition MatchMetaSchema : Schema MatchMeta :=
  z_object (fun path props =>
    Success mkMeta
      <@> key "id" z_id path props
      <@> key "season" (z_number [num_int; num_positive]) path props
      <@> key "title" z_string path props
      <@> key "home" TeamSchema path props
      <@> key "away" TeamSchema path props
      <@> key "officials" OfficialsSchema path props).

Definition MatchScriptSchema : Schema MatchScript :=
  z_object (fun path props =>
    Success mkScript
      <@> key "match" MatchMetaSchema path props
      <@> key "events" (z_array MatchEventSchema None) path props).

(** MatchScriptSchema.safeParse(raw) *)
Definition safeParse (raw : Raw) : SafeParse MatchScript := MatchScriptSchema [] raw.

(** ** The validator ([engine/validator.ts]) *)

Record ValidationResult := mkResult {
  valid : bool;
  errors : list string;
  warnings : list string;
}.

(** The double quote inside the template strings. *)
Definition dq : string := String (ascii_of_nat 34) EmptyString.

(** `[schema] ${issue.path.join(".")}: ${issue.message}` *)
Definition schemaError (issue : ZodIssue) : string :=
  "[schema] " +:+ String.concat "." (issue_path issue) +:+ ": " +:+ issue_message issue.

(** The closure [addName] with the two variables it captures, [allNames] and
    [errors]. *)
Definition addName (name context : string) (acc : gset string * list string)
  : gset string * list string :=
  let '(allNames, errors) := acc in
  (allNames ∪ {[name]},
   if bool_decide (name ∈ allNames)
   then (errors ++ ["[identity] Duplicate name " +:+ dq +:+ name +:+ dq +:+ " in " +:+ context])%list
   else errors).

Definition addFieldNames (t : Team) (acc : gset string * list string)
  : gset string * list string :=
  fold_left (fun acc p => addName (name p) (code t +:+ " field") acc) (field t) acc.

Definition formationErrors (t : Team) : list string :=
  if bool_decide (length (field t) ≠ 4%nat)
  then ["[formation] " +:+ code t +:+ " has " +:+ show_nat (length (field t))
        +:+ " field players, expected 4"]
  else [].

(** The loop over [i = 1 .. events.length - 1]: [prev] is [events[i - 1]]. *)
Fixpoint minuteWarnings (i : nat) (prev : MatchEvent) (rest : list MatchEvent)
  : list string :=
  match rest with
  | [] => []
  | ev :: rest' =>
      ((if minute ev <? minute prev
        then ["[sequence] Event " +:+ show_nat i +:+ ": minute " +:+ show_Z (minute ev)
              +:+ " < previous " +:+ show_Z (minute prev)]
        else []) ++ minuteWarnings (S i) ev rest')%list
  end.

(** The checks made on [events[i]], in the order of the loop body. *)
Definition eventErrors (knownNames : gset string) (i : nat) (ev : MatchEvent)
  : list string :=
  let unknown (o : option string) (what close : string) : list string :=
    match o with
    | Some n =>
        if nonempty n && negb (bool_decide (n ∈ knownNames))
        then ["[events] Event " +:+ show_nat i +:+ ": unknown " +:+ what +:+ n +:+ close]
        else []
    | None => []
    end in
  (unknown (actor ev) ("actor " +:+ dq) dq
   ++ unknown (from ev) ("'from' " +:+ dq) dq
   ++ unknown (to ev) ("'to' " +:+ dq) dq
   ++ (if bool_decide (type ev = speak) && negb (truthy (text ev))
       then ["[events] Event " +:+ show_nat i +:+ ": speak event has no text"] else [])
   ++ (if bool_decide (type ev = announce) && negb (truthy (text ev))
       then ["[events] Event " +:+ show_nat i +:+ ": announce event has no text"] else [])
   ++ (if bool_decide (type ev = pass)
       then (if negb (truthy (from ev))
             then ["[events] Event " +:+ show_nat i +:+ ": pass missing 'from'"] else [])
            ++ (if negb (truthy (to ev))
                then ["[events] Event " +:+ show_nat i +:+ ": pass missing 'to'"] else [])
       else []))%list.

Fixpoint eventLoop (knownNames : gset string) (i : nat) (evs : list MatchEvent)
  : list string :=
  match evs with
  | [] => []
  | ev :: rest => (eventErrors knownNames i ev ++ eventLoop knownNames (S i) rest)%list
  end.

(** The part of [validateScript] that runs once the schema accepted the
    document. *)
Definition semanticChecks (script : MatchScript) : ValidationResult :=
  let m := match_ script in
  let evs := events script in
  (* identity uniqueness *)
  let acc := addName (name (tender (home m))) (code (home m) +:+ " tender") (∅, []) in
  let acc := addFieldNames (home m) acc in
  let acc := addName (name (tender (away m))) (code (away m) +:+ " tender") acc in
  let acc := addFieldNames (away m) acc in
  let acc := addName (official_name (referee (officials m))) "referee" acc in
  let acc := addName (official_name (pbp (officials m))) "pbp" acc in
  let acc := addName (official_name (color (officials m))) "color" acc in
  let '(allNames, errors) := acc in
  (* formation check *)
  let errors := (errors ++ formationErrors (home m) ++ formationErrors (away m))%list in
  (* event sequence checks *)
  let errors :=
    (errors ++ (if (length evs =? 0)%nat then ["[events] Match has no events"] else []))%list in
  let warnings :=
    match evs with
    | [] => []
    | first :: rest => minuteWarnings 1 first rest
    end in
  let knownNames : gset string := allNames ∪ {["referee"]} ∪ {["pbp"]} ∪ {["color"]} in
  let errors := (errors ++ eventLoop knownNames 0 evs)%list in
  let warnings :=
    (warnings ++
     match evs with
     | first :: _ =>
         if bool_decide (type first ≠ whistle)
         then ["[sequence] Match does not begin with a whistle"] else []
     | [] => []
     end)%list in
  let warnings :=
    (warnings ++
     match last evs with
     | Some l =>
         if bool_decide (type l ≠ fulltime_marker)
         then ["[sequence] Match does not end with fulltime"] else []
     | None => []
     end)%list in
  {| valid := (length errors =? 0)%nat; errors := errors; warnings := warnings |}.

Definition validateScript (raw : Raw) : ValidationResult :=
  match safeParse raw with
  | Failure issues =>
      {| valid := false; errors := map schemaError issues; warnings := [] |}
  | Success script => semanticChecks script
  end.

(** ** Sample documents

    Typed scripts written back as the untyped documents the YAML loader
    produces, and a small match between two five-a-side teams used to run the
    definitions on concrete inputs. *)

Definition roleName (r : PositionRole) : string :=
  match r with
  | role_tender => "tender" | role_defender => "defender"
  | role_midfielder => "midfielder" | role_forward => "forward"
  end.

Definition typeName (t : EventType) : string :=
  match t with
  | whistle => "whistle" | dead_ball => "dead_ball"
  | speak => "speak" | announce => "announce" | comment => "comment"
  | pass => "pass" | intercept => "intercept" | hold => "hold"
  | move => "move" | exit => "exit"
  | card => "card" | penalty => "penalty" | goal => "goal"
  | pause => "pause" | halftime_marker => "halftime"
  | fulltime_marker => "fulltime"
  end.

Definition cardName (c : CardType) : string :=
  match c with yellow => "yellow" | red => "red" end.

Definition rawPlayer (p : Player) : Raw :=
  RObject [("name", RString (name p)); ("role", RString (roleName (role p)));
           ("voice", RString (voice p))].

Definition rawTeam (t : Team) : Raw :=
  RObject [("code", RString (code t)); ("name", RString (team_name t));
           ("tender", rawPlayer (tender t));
           ("field", RArray (map rawPlayer (field t)))].

Definition rawOfficial (o : Official) : Raw :=
  RObject [("name", RString (official_name o)); ("voice", RString (official_voice o))].

Definition rawPosition (p : PitchPosition) : Raw :=
  RObject [("x", RNumber (x p)); ("y", RNumber (y p))].

(** An optional key: left out of the object when the field is absent. *)
Definition rawKey {A : Type} (k : string) (f : A -> Raw) (o : option A)
  : list (string * Raw) :=
  match o with Some v => [(k, f v)] | None => [] end.

Definition rawEvent (ev : MatchEvent) : Raw :=
  RObject
    ([("minute", RNumber (minute ev))] ++ rawKey "added" RNumber (added ev)
     ++ [("type", RString (typeName (type ev)))]
     ++ rawKey "actor" RString (actor ev) ++ rawKey "text" RString (text ev)
     ++ rawKey "tone" RString (tone ev) ++ rawKey "pause_ms" RNumber (pause_ms ev)
     ++ rawKey "from" RString (from ev) ++ rawKey "to" RString (to ev)
     ++ rawKey "position" rawPosition (position ev)
     ++ rawKey "card" (fun c => RString (cardName c)) (ev_card ev)
     ++ rawKey "reason" RString (reason ev)
     ++ rawKey "direction" RString (direction ev))%list.

Definition rawScript (s : MatchScript) : Raw :=
  let m := match_ s in
  RObject
    [("match",
      RObject [("id", RString (id m)); ("season", RNumber (season m));
               ("title", RString (title m));
               ("home", rawTeam (home m)); ("away", rawTeam (away m));
               ("officials",
                RObject [("referee", rawOfficial (referee (officials m)));
                         ("pbp", rawOfficial (pbp (officials m)));
                         ("color", rawOfficial (color (officials m)))])]);
     ("events", RArray (map rawEvent (events s)))].

(** [raw.match[side].field] when the document has that shape and the value is
    an array. *)
Definition fieldOf (side : string) (raw : Raw) : option (list Raw) :=
  match raw with
  | RObject props =>
      match prop "match" props with
      | RObject mprops =>
          match prop side mprops with
          | RObject tprops =>
              match prop "field" tprops with
              | RArray items => Some items
              | _ => None
              end
          | _ => None
          end
      | _ => None
      end
  | _ => None
  end.

Definition athens (tenderName : string) (fld : list Player) : Team :=
  mkTeam "ATH" "Athens" (mkPlayer tenderName role_tender "v1") fld.

Definition athensField : list Player :=
  [mkPlayer "Plato" role_defender "v2"; mkPlayer "Aristotle" role_midfielder "v3";
   mkPlayer "Zeno" role_midfielder "v4"; mkPlayer "Epicurus" role_forward "v5"].

Definition koenigsberg : Team :=
  mkTeam "KOE" "Koenigsberg" (mkPlayer "Kant" role_tender "v6")
    [mkPlayer "Hume" role_defender "v7"; mkPlayer "Locke" role_midfielder "v8";
     mkPlayer "Hegel" role_midfielder "v9"; mkPlayer "Mill" role_forward "v10"].

Definition sampleScript (homeTeam : Team) (evs : list MatchEvent) : MatchScript :=
  mkScript
    (mkMeta "S1M001" 1 "On Virtue" homeTeam koenigsberg
       (mkOfficials (mkOfficial "Minerva" "v11") (mkOfficial "Herodotus" "v12")
          (mkOfficial "Thucydides" "v13")))
    evs.

(** A typed event with only [minute] and [type] filled in. *)
Definition bareEvent (m : Z) (ty : EventType) : MatchEvent :=
  mkEvent m None ty None None None None None None None None None None.

Definition withActor (a : string) (ev : MatchEvent) : MatchEvent :=
  mkEvent (minute ev) (added ev) (type ev) (Some a) (text ev) (tone ev)
    (pause_ms ev) (from ev) (to ev) (position ev) (ev_card ev) (reason ev)
    (direction ev).

Definition withFromTo (f t : option string) (ev : MatchEvent) : MatchEvent :=
  mkEvent (minute ev) (added ev) (type ev) (actor ev) (text ev) (tone ev)
    (pause_ms ev) f t (position ev) (ev_card ev) (reason ev) (direction ev).

Definition withReason (r : string) (ev : MatchEvent) : MatchEvent :=
  mkEvent (minute ev) (added ev) (type ev) (actor ev) (text ev) (tone ev)
    (pause_ms ev) (from ev) (to ev) (position ev) (ev_card ev) (Some r)
    (direction ev).

Definition kickoff : MatchEvent := withReason "kickoff" (bareEvent 0 whistle).

Definition passTo (m : Z) (f t : string) : MatchEvent :=
  withFromTo (Some f) (Some t) (bareEvent m pass).

(** The possession invariant of the glossary: at most one flag is up, and
    [ball.holder] names the player whose flag is up. *)
Definition possessionExclusive (st : MatchState) : Prop :=
  (forall n1 n2 p1 p2,
      players st !! n1 = Some p1 -> players st !! n2 = Some p2 ->
      hasBall p1 = true -> hasBall p2 = true -> n1 = n2)
  /\ (forall n, holder (ball st) = Some n <->
                exists p, players st !! n = Some p /\ hasBall p = true).

(** The sample match, and the same match with a home tender whose name is the
    empty string (a name the schema accepts). *)
Definition virtueMatch (evs : list MatchEvent) : MatchScript :=
  sampleScript (athens "Socrates" athensField) evs.

Definition namelessMatch (evs : list MatchEvent) : MatchScript :=
  sampleScript (athens "" athensField) evs.

Definition goalBy (m : Z) (a : string) : MatchEvent := withActor a (bareEvent m goal).

Definition exitOf (m : Z) (a : string) : MatchEvent := withActor a (bareEvent m exit).



(** A match in which a goal is followed by a second kickoff. *)
Definition goalThenKickoff : MatchScript :=
  virtueMatch [kickoff; passTo 5 "Socrates" "Epicurus"; goalBy 20 "Epicurus";
               withReason "kickoff" (bareEvent 21 whistle);
               bareEvent 90 fulltime_marker].

(** A match in which the ball goes dead in a defender's feet, play is kicked
    off again and the defender then leaves the pitch. *)
Definition deadBallMatch : MatchScript :=
  virtueMatch [kickoff; passTo 5 "Socrates" "Plato"; bareEvent 6 dead_ball;
               withReason "kickoff" (bareEvent 7 whistle);
               exitOf 9 "Plato"; bareEvent 90 fulltime_marker].

(** A match in which the tender passes to the referee, who is no player, and
    then leaves the pitch. *)
Definition strayPassMatch : MatchScript :=
  virtueMatch [kickoff; passTo 5 "Socrates" "referee"; exitOf 9 "Socrates";
               bareEvent 90 fulltime_marker].

(** A failed parse that names at least one issue, and a schema all of whose
    failures do. *)
Definition reports {A : Type} (r : SafeParse A) : Prop :=
  match r with
  | Failure [] => False
  | _ => True
  end.

Definition sound {A : Type} (s : Schema A) : Prop :=
  forall path r, reports (s path r).

(** A parse that failed, whatever the wording of its issues. *)
Definition refused {A : Type} (r : SafeParse A) : Prop :=
  match r with
  | Failure _ => True
  | Success _ => False
  end.

(** The common start of the two messages about an incomplete pass at index
    [i]. *)
Definition passMissing (i : nat) : string :=
  "[events] Event " +:+ show_nat i +:+ ": pass missing".

(** What follows [[events] Event i: ] in the messages of [eventErrors], in
    the order of the loop body, and the two of them that report an incomplete
    pass. *)
Definition eventMessage (i : nat) (body : string) : string :=
  "[events] Event " +:+ show_nat i +:+ ": " +:+ body.

Definition unknownBody (knownNames : gset string) (o : option string)
    (what : string) : list string :=
  match o with
  | Some n =>
      if nonempty n && negb (bool_decide (n ∈ knownNames))
      then ["unknown " +:+ what +:+ dq +:+ n +:+ dq]
      else []
  | None => []
  end.

Definition passBodies (ev : MatchEvent) : list string :=
  if bool_decide (type ev = pass)
  then ((if truthy (from ev) then [] else ["pass missing 'from'"])
        ++ (if truthy (to ev) then [] else ["pass missing 'to'"]))%list
  else [].

Definition eventBodies (knownNames : gset string) (ev : MatchEvent) : list string :=
  (unknownBody knownNames (actor ev) "actor "
   ++ unknownBody knownNames (from ev) "'from' "
   ++ unknownBody knownNames (to ev) "'to' "
   ++ (if bool_decide (type ev = speak) && negb (truthy (text ev))
       then ["speak event has no text"] else [])
   ++ (if bool_decide (type ev = announce) && negb (truthy (text ev))
       then ["announce event has no text"] else [])
   ++ passBodies ev)%list.

(** ** The clock display ([formatClock] of [engine/clock.ts]) *)



(** ** Pitch zones ([pitch/positions.ts]) *)

Definition describeZone (pos : PitchPosition) : string :=
  if x pos <? -35 then "deep in own half"
  else if x pos <? -17 then "own defensive third"
  else if x pos <? 0 then "own midfield"
  else if (x pos =? 0) && (Z.abs (y pos) <? 5) then "center circle"
  else if x pos <? 17 then "opponent's midfield"
  else if x pos <? 35 then "attacking third"
  else "deep in opponent's half".

Definition isNearGoal (pos : PitchPosition) (t : Side) : bool :=
  let goalX := match t with side_home => -48 | side_away => 48 end in
  (Z.abs (x pos - goalX) <? 10) && (Z.abs (y pos) <? 15).

(** The reflection of the pitch across the halfway line. *)
Definition mirror (pos : PitchPosition) : PitchPosition := mkPos (- x pos) (y pos).

Definition otherSide (t : Side) : Side :=
  match t with side_home => side_away | side_away => side_home end.

(** The ranges [PitchPosition] of [types/events.ts] declares. *)
Definition onPitchArea (pos : PitchPosition) : Prop :=
  -50 <= x pos <= 50 /\ -35 <= y pos <= 35.

(** ** The loader ([loader.ts])

    [loadMatchScript] from the point where the file has been read and parsed:
    it validates, throws when the verdict is invalid, and otherwise parses the
    same value again with [MatchScriptSchema.parse], which throws a [ZodError]
    on failure. *)

Inductive LoadOutcome :=
| Loaded (script : MatchScript)
| ValidationFailed (message : string)
| ZodError (issues : list ZodIssue).

Definition loadMatchScript (parsed : Raw) : LoadOutcome :=
  let result := validateScript parsed in
  if negb (valid result)
  then ValidationFailed
         ("Match script validation failed (" +:+ show_nat (length (errors result))
          +:+ " errors)")
  else match safeParse parsed with
       | Success script => Loaded script
       | Failure issues => ZodError issues
       end.

(** ** Voices ([resolveVoice] of [dispatch/matrix.ts]) *)

Definition resolveVoice (actorName : string) (st : MatchState) : option string :=
  match players st !! actorName with
  | Some ps => Some (voice (player ps))
  | None =>
      let o := officials (meta st) in
      if String.eqb actorName (official_name (referee o)) || String.eqb actorName "referee"
      then Some (official_voice (referee o))
      else if String.eqb actorName (official_name (pbp o)) || String.eqb actorName "pbp"
      then Some (official_voice (pbp o))
      else if String.eqb actorName (official_name (color o)) || String.eqb actorName "color"
      then Some (official_voice (color o))
      else None
  end.

(** ** XML escaping ([escapeXml] of [audio/ssml.ts])

    The five characters replaced are ASCII, so the replacement acts the same
    on the bytes of the text as on its characters. *)

(** text.replace(/c/g, rep) for a single character [c]. *)
Fixpoint replaceAll (c : ascii) (rep : string) (s : string) : string :=
  match s with
  | EmptyString => EmptyString
  | String a rest =>
      if Ascii.eqb a c then rep +:+ replaceAll c rep rest
      else String a (replaceAll c rep rest)
  end.

Definition escapeXml (text : string) : string :=
  replaceAll "'" "&apos;"
    (replaceAll (ascii_of_nat 34) "&quot;"
       (replaceAll ">" "&gt;"
          (replaceAll "<" "&lt;"
             (replaceAll "&" "&amp;" text)))).

(** What one character becomes under [escapeXml]. *)
Definition escapeChar (a : ascii) : string :=
  if Ascii.eqb a "&" then "&amp;"
  else if Ascii.eqb a "<" then "&lt;"
  else if Ascii.eqb a ">" then "&gt;"
  else if Ascii.eqb a (ascii_of_nat 34) then "&quot;"
  else if Ascii.eqb a "'" then "&apos;"
  else String a EmptyString.

Fixpoint occurs (c : ascii) (s : string) : bool :=
  match s with
  | EmptyString => false
  | String a rest => Ascii.eqb a c || occurs c rest
  end.

(** ** Vocabulary for the properties of the validator and of the replay *)

(** The thirteen names [addName] is called on, in the order of the calls. *)
Definition participantNames (m : MatchMeta) : list string :=
  (name (tender (home m)) :: (name <$> field (home m)))
  ++ (name (tender (away m)) :: (name <$> field (away m)))
  ++ [official_name (referee (officials m)); official_name (pbp (officials m));
      official_name (color (officials m))].

(** The names of the players, the keys of the engine's table. *)
Definition playerNames (m : MatchMeta) : list string :=
  (name (tender (home m)) :: (name <$> field (home m)))
  ++ (name (tender (away m)) :: (name <$> field (away m))).

(** A name an event may use: a participant or one of the three aliases. *)
Definition knownName (m : MatchMeta) (n : string) : Prop :=
  n ∈ participantNames m \/ n = "referee" \/ n = "pbp" \/ n = "color".

(** An event that raises no error in the loop of the validator. *)
Definition eventAccepted (m : MatchMeta) (ev : MatchEvent) : Prop :=
  (forall n, n <> "" -> actor ev = Some n \/ from ev = Some n \/ to ev = Some n ->
             knownName m n)
  /\ (type ev = speak \/ type ev = announce -> truthy (text ev) = true)
  /\ (type ev = pass -> truthy (from ev) = true /\ truthy (to ev) = true).

Fixpoint minutesNeverDecrease (prev : Z) (evs : list MatchEvent) : Prop :=
  match evs with
  | [] => True
  | ev :: rest => prev <= minute ev /\ minutesNeverDecrease (minute ev) rest
  end.

(** A goal event the engine counts for side [t], given the table [m]. *)
Definition countsFor (m : gmap string PlayerState) (t : Side) (ev : MatchEvent) : bool :=
  match type ev, actor ev with
  | goal, Some a =>
      nonempty a &&
      match m !! a with
      | Some ps => bool_decide (team ps = t)
      | None => false
      end
  | _, _ => false
  end.

(** Relations between a player record and a later one: same participant and
    side; still within the pitch ranges if it was. *)
Definition sameIdentity (ps ps' : PlayerState) : Prop :=
  player ps' = player ps /\ team ps' = team ps.

Definition staysInside (ps ps' : PlayerState) : Prop :=
  onPitchArea (ps_position ps) -> onPitchArea (ps_position ps').

Definition withCard (c : CardType) (ev : MatchEvent) : MatchEvent :=
  mkEvent (minute ev) (added ev) (type ev) (actor ev) (text ev) (tone ev)
    (pause_ms ev) (from ev) (to ev) (position ev) (Some c) (reason ev)
    (direction ev).

Definition booking (m : Z) (a : string) (c : CardType) : MatchEvent :=
  withCard c (withActor a (bareEvent m card)).

Definition withPosition (p : PitchPosition) (ev : MatchEvent) : MatchEvent :=
  mkEvent (minute ev) (added ev) (type ev) (actor ev) (text ev) (tone ev)
    (pause_ms ev) (from ev) (to ev) (Some p) (ev_card ev) (reason ev)
    (direction ev).

Definition withText (t : string) (ev : MatchEvent) : MatchEvent :=
  mkEvent (minute ev) (added ev) (type ev) (actor ev) (Some t) (tone ev)
    (pause_ms ev) (from ev) (to ev) (position ev) (ev_card ev) (reason ev)
    (direction ev).

(** The number of events of [evs] for which [f] answers [true]. *)
Definition countEvents (f : MatchEvent -> bool) (evs : list MatchEvent) : Z :=
  Z.of_nat (length (List.filter f evs)).

(** [ball.holder], when set, is a name of the player table. *)
Definition holderKnown (st : MatchState) : Prop :=
  forall h, holder (ball st) = Some h -> is_Some (players st !! h).



(** The name a possession event hands the ball to: [to] for a pass, [actor]
    for an intercept or a hold. *)
Definition receiver (ev : MatchEvent) : option string :=
  match type ev with
  | pass => to ev
  | intercept | hold => actor ev
  | _ => None
  end.

(** Every player and the ball are within the ranges of [PitchPosition]. *)
Definition allInside (st : MatchState) : Prop :=
  onPitchArea (ball_position (ball st))
  /\ forall k ps, players st !! k = Some ps -> onPitchArea (ps_position ps).

(** The ranges the schema imposes on the numbers of an event. *)
Definition eventInRange (ev : MatchEvent) : Prop :=
  0 <= minute ev <= 90
  /\ (forall a, added ev = Some a -> 0 <= a)
  /\ (forall pos, position ev = Some pos -> onPitchArea pos).

(** The state of the identity pass after [addName] was called on the names
    [seen]: the set holds them, and each call added either a name to the set
    or an error to the list. *)
Definition tracks (seen : list string) (acc : gset string * list string) : Prop :=
  acc.1 = list_to_set seen
  /\ (length acc.2 + size acc.1 = length seen)%nat
  /\ (acc.2 = [] <-> NoDup seen)
  /\ Forall (fun e => String.prefix "[identity]" e = true) acc.2.

(** The set [knownNames] of the validator. *)
Definition knownNamesOf (m : MatchMeta) : gset string :=
  list_to_set (participantNames m) ∪ {["referee"]} ∪ {["pbp"]} ∪ {["color"]}.

(** The errors of the identity pass: those tagged [[identity]]. *)
Definition identityErrors (errs : list string) : list string :=
  List.filter (String.prefix "[identity]") errs.

(** The five spots of a formation, reflected across the halfway line. *)
Definition mirrorFormation (f : Formation) : Formation :=
  {| f_tender := mirror (f_tender f);
     f_defender := mirror (f_defender f);
     f_midfielder_left := mirror (f_midfielder_left f);
     f_midfielder_right := mirror (f_midfielder_right f);
     f_forward := mirror (f_forward f) |}.

Definition formationSpots (f : Formation) : list PitchPosition :=
  [f_tender f; f_defender f; f_midfielder_left f; f_midfielder_right f; f_forward f].

Fixpoint allDigits (s : string) : bool :=
  match s with
  | EmptyString => true
  | String c rest => is_digit c && allDigits rest
  end.

(** What one event does to the player named [k], field by field: the cards
    it shows to [k], whether it sends [k] off, and where it moves [k]. *)
Definition names (ev : MatchEvent) (k : string) : bool :=
  match actor ev with
  | Some a => nonempty a && String.eqb a k
  | None => false
  end.

Definition cardsShown (k : string) (ev : MatchEvent) : list CardType :=
  match type ev, ev_card ev with
  | card, Some c => if names ev k then [c] else []
  | _, _ => []
  end.

Definition sendsOff (k : string) (ev : MatchEvent) : bool :=
  match type ev with
  | exit => names ev k
  | _ => false
  end.

Definition movesTo (k : string) (ev : MatchEvent) : option PitchPosition :=
  match type ev, position ev with
  | move, Some pos => if names ev k then Some pos else None
  | _, _ => None
  end.

(** A record and a later one that differ at most in the possession flag. *)
Definition sameButBall (ps ps' : PlayerState) : Prop :=
  player ps' = player ps /\ team ps' = team ps
  /\ ps_position ps' = ps_position ps /\ onPitch ps' = onPitch ps
  /\ cards ps' = cards ps.

(** The record of [k] after the event, but for the possession flag. *)
Definition afterEvent (k : string) (ev : MatchEvent) (ps ps' : PlayerState) : Prop :=
  player ps' = player ps /\ team ps' = team ps
  /\ ps_position ps' = default (ps_position ps) (movesTo k ev)
  /\ onPitch ps' = onPitch ps && negb (sendsOff k ev)
  /\ cards ps' = (cards ps ++ cardsShown k ev)%list.

(** The last position the events move [k] to, [start] when there is none. *)
Definition lastMove (k : string) (start : PitchPosition) (evs : list MatchEvent)
  : PitchPosition :=
  fold_left (fun pos ev => default pos (movesTo k ev)) evs start.

(** The keys of the document [rawEvent] writes for an event. *)
Definition eventProps (ev : MatchEvent) : list (string * Raw) :=
  ([("minute", RNumber (minute ev))] ++ rawKey "added" RNumber (added ev)
   ++ [("type", RString (typeName (type ev)))]
   ++ rawKey "actor" RString (actor ev) ++ rawKey "text" RString (text ev)
   ++ rawKey "tone" RString (tone ev) ++ rawKey "pause_ms" RNumber (pause_ms ev)
   ++ rawKey "from" RString (from ev) ++ rawKey "to" RString (to ev)
   ++ rawKey "position" rawPosition (position ev)
   ++ rawKey "card" (fun c => RString (cardName c)) (ev_card ev)
   ++ rawKey "reason" RString (reason ev)
   ++ rawKey "direction" RString (direction ev))%list.

(** A script with both team codes in upper case, as the schema returns it. *)
Definition upperCode (t : Team) : Team :=
  mkTeam (toUpperCase (code t)) (team_name t) (tender t) (field t).

Definition upperCodes (s : MatchScript) : MatchScript :=
  let m := match_ s in
  mkScript
    (mkMeta (id m) (season m) (title m) (upperCode (home m)) (upperCode (away m))
       (officials m))
    (events s).

(** A typed script within the ranges and forms the schema declares, whose
    team codes are three ASCII characters. *)
Definition inSchema (s : MatchScript) : Prop :=
  matches_id (id (match_ s)) = true
  /\ 0 < season (match_ s)
  /\ (isAscii (code (home (match_ s))) = true
      /\ String.length (code (home (match_ s))) = 3%nat)
  /\ (isAscii (code (away (match_ s))) = true
      /\ String.length (code (away (match_ s))) = 3%nat)
  /\ length (field (home (match_ s))) = 4%nat
  /\ length (field (away (match_ s))) = 4%nat
  /\ Forall eventInRange (events s).

(** * Properties *)

(** ** Small facts used throughout *)

Lemma nonempty_true (s : string) : nonempty s = true <-> s <> "".
Proof. destruct s; simpl; split; intros; congruence. Qed.

Lemma truthy_None : truthy None = false.
Proof. reflexivity. Qed.

Lemma truthy_Some (s : string) : s <> "" -> truthy (Some s) = true.
Proof. intros H. simpl. by apply nonempty_true. Qed.

(** ** The clock *)

Lemma derivePeriod_settled (m : Z) (p : MatchPeriod) :
  p <> pre -> p <> halftime ->
  derivePeriod m p = if m <=? 45 then first_half else second_half.
Proof.
  intros Hpre Hht. unfold derivePeriod.
  rewrite (bool_decide_eq_false_2 _ Hpre), (bool_decide_eq_false_2 _ Hht).
  reflexivity.
Qed.

Lemma derivePeriod_playing (m : Z) (p : MatchPeriod) :
  derivePeriod m p = first_half \/ derivePeriod m p = second_half.
Proof.
  unfold derivePeriod.
  destruct (bool_decide (p = pre) && (m =? 0)); [by left|].
  destruct (bool_decide (p = halftime)); [by right|].
  destruct (m <=? 45); [by left | by right].
Qed.

(** C1, as amended.  Deriving the period a second time from the same minute
    gives the period of the first derivation whenever the clock was not at
    [halftime], or the minute is past 45. *)
Theorem advanceClock_twice_same_period (s : ClockState) (m : Z) (a a' : option Z) :
  period s <> halftime \/ 45 < m ->
  period (advanceClock (advanceClock s m a) m a') = period (advanceClock s m a).
Proof.
  intros H. simpl.
  destruct (derivePeriod_playing m (period s)) as [E|E].
  - rewrite E, derivePeriod_settled by done.
    revert E. unfold derivePeriod.
    destruct (bool_decide_reflect (period s = pre)) as [Hp|Hp]; simpl.
    + destruct (Z.eqb_spec m 0) as [->|_]; [done|].
      rewrite bool_decide_eq_false_2 by congruence.
      by destruct (m <=? 45).
    + destruct (bool_decide_reflect (period s = halftime)) as [Hh|Hh]; [done|].
      by destruct (m <=? 45).
  - rewrite E, derivePeriod_settled by done.
    revert E. unfold derivePeriod.
    destruct (bool_decide (period s = pre) && (m =? 0)); [done|].
    destruct (bool_decide_reflect (period s = halftime)) as [Hh|Hh].
    + intros _. destruct H as [H|H]; [done|].
      destruct (Z.leb_spec m 45); [lia|done].
    + by destruct (m <=? 45).
Qed.

Lemma advanceClock_twice_same_period_witness :
  period (advanceClock (advanceClock initialClock 0 None) 0 (Some 2))
  = period (advanceClock initialClock 0 None).
Proof.
  apply (advanceClock_twice_same_period initialClock 0 None (Some 2)).
  left. simpl. discriminate.
Defined.

(** C1 as stated fails right after half time: from a clock at [halftime] the
    first call at minute 10 answers [second_half], the second [first_half]. *)
Lemma advanceClock_twice_differs_after_halftime :
  let s := {| clock_minute := 45; clock_added := 0; period := halftime |} in
  period (advanceClock s 10 None) = second_half
  /\ period (advanceClock (advanceClock s 10 None) 10 None) = first_half
  /\ period (advanceClock (advanceClock s 10 None) 10 None)
     <> period (advanceClock s 10 None).
Proof.
  intros s. split; [reflexivity|]. split; [reflexivity|].
  vm_compute. discriminate.
Qed.

(** ** The engine: what [releaseBall] and [giveBall] touch *)

Lemma releaseBall_frame (st : MatchState) :
  meta (releaseBall st) = meta st /\ clock (releaseBall st) = clock st
  /\ score (releaseBall st) = score st /\ ball (releaseBall st) = ball st
  /\ eventIndex (releaseBall st) = eventIndex st
  /\ totalEvents (releaseBall st) = totalEvents st.
Proof.
  unfold releaseBall. destruct (holder (ball st)) as [h|]; [|done].
  by destruct (nonempty h).
Qed.

Lemma releaseBall_lookup (st : MatchState) (n : string) :
  players (releaseBall st) !! n
  = if bool_decide (holder (ball st) = Some n) && nonempty n
    then set_hasBall false <$> players st !! n
    else players st !! n.
Proof.
  unfold releaseBall. destruct (holder (ball st)) as [h|] eqn:Hh; simpl.
  - destruct (bool_decide_reflect (Some h = Some n)) as [E|E]; simpl.
    + injection E as ->. destruct (nonempty n); simpl; [|done].
      by rewrite lookup_alter_eq.
    + destruct (nonempty h); simpl; [|done].
      rewrite lookup_alter_ne; [done | congruence].
  - done.
Qed.


Lemma releaseBall_known (st : MatchState) (n : string) (ps : PlayerState) :
  players st !! n = Some ps ->
  exists ps', players (releaseBall st) !! n = Some ps'
              /\ ps_position ps' = ps_position ps /\ team ps' = team ps.
Proof.
  intros H. rewrite releaseBall_lookup, H.
  destruct (_ && _); simpl; eauto.
Qed.



(** ** The engine: goals *)

(** C10.  A goal event without an actor changes nothing at all. *)
Theorem goal_without_actor_is_noop (st : MatchState) (ev : MatchEvent) :
  type ev = goal -> actor ev = None -> applyEvent ev st = st.
Proof. intros Ht Ha. unfold applyEvent. by rewrite Ht, Ha. Qed.

Lemma goal_without_actor_is_noop_witness :
  let st := step 0 kickoff (initializeState (virtueMatch [])) in
  applyEvent (bareEvent 12 goal) st = st.
Proof.
  intros st. apply (goal_without_actor_is_noop st (bareEvent 12 goal)); reflexivity.
Defined.

(** C5, as amended.  A goal whose actor is a non-empty name found in the
    player table adds one to the counter of the scorer's side and leaves the
    other counter alone; the ball is dead, without a holder, at the centre
    spot. *)
Theorem goal_counts_for_scorer_side (st : MatchState) (ev : MatchEvent)
    (a : string) (ps : PlayerState) :
  type ev = goal -> actor ev = Some a -> a <> "" -> players st !! a = Some ps ->
  ball (applyEvent ev st) = {| holder := None; ball_position := center; dead := true |}
  /\ (team ps = side_home ->
      score_home (score (applyEvent ev st)) = score_home (score st) + 1
      /\ score_away (score (applyEvent ev st)) = score_away (score st))
  /\ (team ps = side_away ->
      score_away (score (applyEvent ev st)) = score_away (score st) + 1
      /\ score_home (score (applyEvent ev st)) = score_home (score st)).
Proof.
  intros Ht Ha Hne Hps. unfold applyEvent. rewrite Ht, Ha.
  apply nonempty_true in Hne. rewrite Hne, Hps.
  destruct (team ps); simpl; repeat split; intros; done.
Qed.

Lemma goal_counts_for_scorer_side_witness :
  let st := initializeState (virtueMatch []) in
  score (applyEvent (goalBy 30 "Epicurus") st) = {| score_home := 1; score_away := 0 |}
  /\ score (applyEvent (goalBy 30 "Mill") st) = {| score_home := 0; score_away := 1 |}
  /\ ball (applyEvent (goalBy 30 "Epicurus") st)
     = {| holder := None; ball_position := center; dead := true |}.
Proof.
  intros st.
  destruct (goal_counts_for_scorer_side st (goalBy 30 "Epicurus") "Epicurus"
              (newPlayerState (mkPlayer "Epicurus" role_forward "v5") side_home (mkPos (-5) 0)))
    as (Hb & Hh & _); [reflexivity | reflexivity | discriminate | vm_compute; reflexivity |].
  destruct (goal_counts_for_scorer_side st (goalBy 30 "Mill") "Mill"
              (newPlayerState (mkPlayer "Mill" role_forward "v10") side_away (mkPos 5 0)))
    as (_ & _ & Ha); [reflexivity | reflexivity | discriminate | vm_compute; reflexivity |].
  split; [| split; [| exact Hb]].
  - destruct (Hh eq_refl) as [H1 H2]. revert H1 H2.
    destruct (score (applyEvent (goalBy 30 "Epicurus") st)). simpl. by intros -> ->.
  - destruct (Ha eq_refl) as [H1 H2]. revert H1 H2.
    destruct (score (applyEvent (goalBy 30 "Mill") st)). simpl. by intros -> ->.
Defined.

(** C5 as stated fails for a scorer whose name is the empty string: the
    document passes the validator, the home tender is in the table under the
    name [""], and a goal by [""] is skipped by [if (event.actor)]. *)
Lemma goal_by_empty_name_not_counted :
  let script := namelessMatch [kickoff; goalBy 30 ""; bareEvent 90 fulltime_marker] in
  let st := step 0 kickoff (initializeState script) in
  validateScript (rawScript script) = {| valid := true; errors := []; warnings := [] |}
  /\ safeParse (rawScript script) = Success script
  /\ (exists ps, players st !! "" = Some ps /\ team ps = side_home)
  /\ type (goalBy 30 "") = goal /\ actor (goalBy 30 "") = Some ""
  /\ score (applyEvent (goalBy 30 "") st) = score st
  /\ dead (ball (applyEvent (goalBy 30 "") st)) = false.
Proof.
  intros script st. split; [vm_compute; reflexivity|].
  split; [vm_compute; reflexivity|].
  split.
  { exists (set_hasBall true
              (newPlayerState (mkPlayer "" role_tender "v1") side_home (mkPos (-46) 0))).
    split; [vm_compute; reflexivity | reflexivity]. }
  repeat split; vm_compute; reflexivity.
Qed.

(** ** The engine: leaving the pitch *)

(** C7 does not hold of the code.  The exit case tests the player's own
    possession flag, not [ball.holder], and the two disagree in states the
    engine reaches on scripts the validator accepts without a warning.  In
    [strayPassMatch] the pass to the referee lowers Socrates's flag and leaves
    him the holder: when he exits, the ball stays live and in the name of a
    player who is off the pitch.  In [deadBallMatch] Plato's flag is left up
    by the dead ball and Socrates holds the ball after the second kickoff:
    the exit of Plato, who is not the holder, kills the ball and clears the
    holder. *)
Theorem exit_of_holder_leaves_ball_live :
  (validateScript (rawScript strayPassMatch)
   = {| valid := true; errors := []; warnings := [] |}
   /\ safeParse (rawScript strayPassMatch) = Success strayPassMatch
   /\ events strayPassMatch !! 2%nat = Some (exitOf 9 "Socrates")
   /\ let st := replayFrom 0 (take 2 (events strayPassMatch))
                  (initializeState strayPassMatch) in
      let st' := step 2 (exitOf 9 "Socrates") st in
      holder (ball st) = Some "Socrates"
      /\ is_Some (players st !! "Socrates")
      /\ dead (ball st') = false
      /\ holder (ball st') = Some "Socrates"
      /\ exists ps, players st' !! "Socrates" = Some ps /\ onPitch ps = false)
  /\ (validateScript (rawScript deadBallMatch)
      = {| valid := true; errors := []; warnings := [] |}
      /\ safeParse (rawScript deadBallMatch) = Success deadBallMatch
      /\ events deadBallMatch !! 4%nat = Some (exitOf 9 "Plato")
      /\ let st := replayFrom 0 (take 4 (events deadBallMatch))
                     (initializeState deadBallMatch) in
         let st' := step 4 (exitOf 9 "Plato") st in
         ball st = {| holder := Some "Socrates"; ball_position := mkPos (-46) 0;
                      dead := false |}
         /\ is_Some (players st !! "Plato")
         /\ ball st' = {| holder := None; ball_position := mkPos (-46) 0;
                          dead := true |}).
Proof.
  split.
  - split; [vm_compute; reflexivity|]. split; [vm_compute; reflexivity|].
    split; [reflexivity|]. cbv zeta.
    split; [vm_compute; reflexivity|].
    split; [vm_compute; eauto|].
    split; [vm_compute; reflexivity|].
    split; [vm_compute; reflexivity|].
    eexists. split; [vm_compute; reflexivity | reflexivity].
  - split; [vm_compute; reflexivity|]. split; [vm_compute; reflexivity|].
    split; [reflexivity|]. cbv zeta.
    split; [vm_compute; reflexivity|].
    split; [vm_compute; eauto|].
    vm_compute; reflexivity.
Qed.

(** ** The engine: kickoff *)

(** C6 does not hold of the code.  In [deadBallMatch], a script the validator
    accepts without a warning, the dead ball of minute 6 clears [ball.holder]
    and leaves Plato's flag up.  The kickoff whistle that follows makes the
    ball live and hands it to the home tender, but [giveBall] lowers the flag
    of [ball.holder] only and there is none: Plato's flag stays up beside the
    tender's. *)
Theorem kickoff_leaves_stale_flag :
  validateScript (rawScript deadBallMatch)
  = {| valid := true; errors := []; warnings := [] |}
  /\ safeParse (rawScript deadBallMatch) = Success deadBallMatch
  /\ events deadBallMatch !! 3%nat = Some (withReason "kickoff" (bareEvent 7 whistle))
  /\ let st := replayFrom 0 (take 3 (events deadBallMatch))
                 (initializeState deadBallMatch) in
     let st' := step 3 (withReason "kickoff" (bareEvent 7 whistle)) st in
     name (tender (home (meta st))) = "Socrates"
     /\ holder (ball st) = None
     /\ (exists ps, players st !! "Plato" = Some ps /\ hasBall ps = true)
     /\ dead (ball st') = false
     /\ holder (ball st') = Some "Socrates"
     /\ (exists ps, players st' !! "Socrates" = Some ps /\ hasBall ps = true)
     /\ (exists ps, players st' !! "Plato" = Some ps /\ hasBall ps = true).
Proof.
  split; [vm_compute; reflexivity|]. split; [vm_compute; reflexivity|].
  split; [reflexivity|]. cbv zeta.
  split; [reflexivity|].
  split; [vm_compute; reflexivity|].
  split; [eexists; split; [vm_compute; reflexivity | reflexivity]|].
  split; [vm_compute; reflexivity|].
  split; [vm_compute; reflexivity|].
  split; eexists; (split; [vm_compute; reflexivity | reflexivity]).
Qed.

(** ** The engine: the table never gains or loses a name *)

Lemma setFieldPlayers_keeps (t : Side) (slots : list PitchPosition) (fld : list Player)
    (i : nat) (m : gmap string PlayerState) (k : string) :
  is_Some (m !! k) -> is_Some (setFieldPlayers t slots i fld m !! k).
Proof.
  revert i m. induction fld as [|p rest IH]; intros i m Hk; simpl; [done|].
  apply IH. destruct (decide (name p = k)) as [->|Hne].
  - rewrite lookup_insert_eq. eauto.
  - by rewrite lookup_insert_ne.
Qed.

Lemma initializeState_home_tender (script : MatchScript) :
  is_Some (players (initializeState script) !! name (tender (home (match_ script)))).
Proof.
  simpl. apply setFieldPlayers_keeps.
  destruct (decide (name (tender (away (match_ script)))
                    = name (tender (home (match_ script))))) as [E|Hne].
  - rewrite E, lookup_insert_eq. eauto.
  - rewrite lookup_insert_ne by done.
    apply setFieldPlayers_keeps. rewrite lookup_insert_eq. eauto.
Qed.

Lemma releaseBall_keeps (st : MatchState) (k : string) :
  is_Some (players st !! k) -> is_Some (players (releaseBall st) !! k).
Proof.
  intros [ps Hps]. destruct (releaseBall_known st k ps Hps) as (ps' & H & _). eauto.
Qed.

Lemma giveBall_keeps (n : string) (st : MatchState) (k : string) :
  is_Some (players st !! k) -> is_Some (players (giveBall n st) !! k).
Proof.
  intros Hk. apply releaseBall_keeps in Hk. unfold giveBall.
  destruct (players (releaseBall st) !! n) as [ps|] eqn:Hn; [|done].
  simpl. destruct (decide (n = k)) as [->|Hne].
  - rewrite lookup_insert_eq. eauto.
  - by rewrite lookup_insert_ne.
Qed.

Lemma giveBall_meta (n : string) (st : MatchState) : meta (giveBall n st) = meta st.
Proof.
  unfold giveBall. destruct (releaseBall_frame st) as (Hm & _).
  by destruct (players (releaseBall st) !! n).
Qed.

Lemma insert_keeps (m : gmap string PlayerState) (a k : string) (v : PlayerState) :
  is_Some (m !! k) -> is_Some (<[a := v]> m !! k).
Proof.
  intros Hk. destruct (decide (a = k)) as [->|Hne].
  - rewrite lookup_insert_eq. eauto.
  - by rewrite lookup_insert_ne.
Qed.

Lemma applyEvent_meta (ev : MatchEvent) (st : MatchState) :
  meta (applyEvent ev st) = meta st.
Proof.
  unfold applyEvent. destruct (type ev); try done.
  - repeat (case_match; simpl; rewrite ?giveBall_meta; try done).
  - repeat (case_match; simpl; rewrite ?giveBall_meta; try done).
  - repeat (case_match; simpl; rewrite ?giveBall_meta; try done).
  - repeat (case_match; simpl; rewrite ?giveBall_meta; try done).
  - repeat (case_match; simpl; try done).
  - repeat (case_match; simpl; try done).
  - repeat (case_match; simpl; try done).
  - repeat (case_match; simpl; try done).
Qed.

Lemma applyEvent_keeps (ev : MatchEvent) (st : MatchState) (k : string) :
  is_Some (players st !! k) -> is_Some (players (applyEvent ev st) !! k).
Proof.
  intros Hk. unfold applyEvent. destruct (type ev); try done.
  - repeat (case_match; simpl; try done); by apply giveBall_keeps.
  - repeat (case_match; simpl; try done); by apply giveBall_keeps.
  - repeat (case_match; simpl; try done); by apply giveBall_keeps.
  - repeat (case_match; simpl; try done); by apply giveBall_keeps.
  - repeat (case_match; simpl; try done); by apply insert_keeps.
  - repeat (case_match; simpl; try done); by apply insert_keeps.
  - repeat (case_match; simpl; try done); by apply insert_keeps.
  - repeat (case_match; simpl; try done).
Qed.

(** The hypothesis of C6 holds wherever the engine can be: the script's home
    tender is in the table of every reachable state. *)
Lemma reachable_home_tender_known (script : MatchScript) (st : MatchState) :
  reachable script st ->
  meta st = match_ script
  /\ is_Some (players st !! name (tender (home (match_ script)))).
Proof.
  induction 1 as [|i ev st Hr [IHm IHk]].
  - split; [done | apply initializeState_home_tender].
  - unfold step. split.
    + by rewrite applyEvent_meta.
    + by apply applyEvent_keeps.
Qed.

Lemma replayFrom_reachable (script : MatchScript) (evs : list MatchEvent) (i : nat)
    (st : MatchState) :
  reachable script st -> reachable script (replayFrom i evs st).
Proof.
  revert i st. induction evs as [|ev rest IH]; intros i st Hr; simpl; [done|].
  apply IH. by constructor.
Qed.

Lemma run_reachable (script : MatchScript) : reachable script (run script).
Proof. apply replayFrom_reachable. constructor. Qed.

(** ** The engine: names nobody bears *)




(** ** The engine: possession *)

(** C9 does not hold of the code.  In [goalThenKickoff], a script the
    validator accepts, the goal clears [ball.holder] but not the scorer's flag,
    and the kickoff that follows raises the tender's flag beside it: two flags
    are up, and one of them is not the holder's. *)
Theorem possession_flags_not_exclusive :
  valid (validateScript (rawScript goalThenKickoff)) = true
  /\ safeParse (rawScript goalThenKickoff) = Success goalThenKickoff
  /\ (let st := replayFrom 0 (take 3 (events goalThenKickoff))
                  (initializeState goalThenKickoff) in
      holder (ball st) = None
      /\ exists ps, players st !! "Epicurus" = Some ps /\ hasBall ps = true)
  /\ (let st := replayFrom 0 (take 4 (events goalThenKickoff))
                  (initializeState goalThenKickoff) in
      holder (ball st) = Some "Socrates"
      /\ (exists ps, players st !! "Socrates" = Some ps /\ hasBall ps = true)
      /\ (exists ps, players st !! "Epicurus" = Some ps /\ hasBall ps = true))
  /\ ~ possessionExclusive (run goalThenKickoff).
Proof.
  split; [vm_compute; reflexivity|].
  split; [vm_compute; reflexivity|].
  split.
  { split; [vm_compute; reflexivity|].
    eexists; split; [vm_compute; reflexivity | reflexivity]. }
  split.
  { split; [vm_compute; reflexivity|].
    split; eexists; (split; [vm_compute; reflexivity | reflexivity]). }
  intros [Hone _].
  assert (H : "Socrates" = "Epicurus"); [|discriminate H].
  eapply Hone; [vm_compute; reflexivity | vm_compute; reflexivity | done | done].
Qed.

(** ** The schema: a failed parse names its issues *)

Create HintDb zod.

Lemma reports_Success {A : Type} (v : A) : reports (Success v).
Proof. exact I. Qed.

Lemma reports_one {A : Type} (i : ZodIssue) : reports (@Failure A [i]).
Proof. exact I. Qed.

Lemma reports_checked {A : Type} (es : list ZodIssue) (v : A) : reports (checked es v).
Proof. by destruct es. Qed.

Lemma reports_ap {A B : Type} (f : SafeParse (A -> B)) (a : SafeParse A) :
  reports f -> reports a -> reports (f <@> a).
Proof.
  unfold ap. destruct f as [g|es], a as [v|js]; simpl; try done.
  destruct es; [done|]. intros _ _. done.
Qed.

#[local] Hint Resolve reports_Success reports_one reports_checked reports_ap : zod.

Lemma sound_z_string : sound z_string.
Proof. intros path r. destruct r; simpl; auto with zod. Qed.

Lemma sound_z_code : sound z_code.
Proof. intros path r. destruct r; simpl; auto with zod. Qed.

Lemma sound_z_id : sound z_id.
Proof. intros path r. destruct r; simpl; auto with zod. Qed.

Lemma sound_z_number (checks : list ((Z -> bool) * string)) : sound (z_number checks).
Proof. intros path r. destruct r; simpl; auto with zod. Qed.

Lemma sound_z_enum {A : Type} (values : list (string * A)) : sound (z_enum values).
Proof.
  intros path r. destruct r; simpl; auto with zod.
  destruct (assoc s values); auto with zod.
Qed.

Lemma sound_z_optional {A : Type} (s : Schema A) : sound s -> sound (z_optional s).
Proof.
  intros Hs path r. unfold z_optional.
  destruct r; try done; (apply reports_ap; [done | apply Hs]).
Qed.

Lemma sound_z_object {A : Type}
    (shape : list string -> list (string * Raw) -> SafeParse A) :
  (forall path props, reports (shape path props)) -> sound (z_object shape).
Proof. intros Hs path r. destruct r; simpl; auto with zod. Qed.

Lemma reports_key {A : Type} (k : string) (s : Schema A) (path : list string)
    (props : list (string * Raw)) :
  sound s -> reports (key k s path props).
Proof. intros Hs. apply Hs. Qed.

Lemma reports_parseItems {A : Type} (s : Schema A) (path : list string) (i : nat)
    (items : list Raw) :
  sound s -> reports (parseItems s path i items).
Proof.
  intros Hs. revert i. induction items as [|r rest IH]; intros i; simpl;
    [done|].
  apply reports_ap; [|apply IH]. apply reports_ap; [done | apply Hs].
Qed.

Lemma sound_z_array {A : Type} (s : Schema A) (exact : option nat) :
  sound s -> sound (z_array s exact).
Proof.
  intros Hs path r. destruct r; simpl; auto with zod.
  apply reports_ap; [auto with zod | by apply reports_parseItems].
Qed.

Lemma sound_ReasonSchema : sound ReasonSchema.
Proof.
  intros path r. unfold ReasonSchema.
  destruct (WhistleReason path r); [done|].
  destruct (z_string path r); done.
Qed.

#[local] Hint Resolve sound_z_string sound_z_code sound_z_id sound_z_number
  sound_z_enum sound_z_optional sound_z_object reports_key sound_z_array
  sound_ReasonSchema : zod.

Lemma sound_PitchPositionSchema : sound PitchPositionSchema.
Proof. apply sound_z_object. intros. auto 20 with zod. Qed.

#[local] Hint Resolve sound_PitchPositionSchema : zod.

Lemma sound_MatchEventSchema : sound MatchEventSchema.
Proof.
  apply sound_z_object. intros.
  repeat (apply reports_ap; [|unfold EventTypeSchema, CardTypeSchema; auto with zod]).
  auto with zod.
Qed.

Lemma sound_PlayerSchema : sound PlayerSchema.
Proof.
  apply sound_z_object. intros.
  repeat (apply reports_ap;
          [|unfold PositionRoleSchema, VoiceSchema; auto with zod]).
  auto with zod.
Qed.

#[local] Hint Resolve sound_MatchEventSchema sound_PlayerSchema : zod.

Lemma sound_TeamSchema : sound TeamSchema.
Proof.
  apply sound_z_object. intros.
  repeat (apply reports_ap; [|auto with zod]). auto with zod.
Qed.

Lemma sound_OfficialSchema : sound OfficialSchema.
Proof.
  apply sound_z_object. intros.
  repeat (apply reports_ap; [|unfold VoiceSchema; auto with zod]). auto with zod.
Qed.

#[local] Hint Resolve sound_TeamSchema sound_OfficialSchema : zod.

Lemma sound_OfficialsSchema : sound OfficialsSchema.
Proof.
  apply sound_z_object. intros.
  repeat (apply reports_ap; [|auto with zod]). auto with zod.
Qed.

#[local] Hint Resolve sound_OfficialsSchema : zod.

Lemma sound_MatchMetaSchema : sound MatchMetaSchema.
Proof.
  apply sound_z_object. intros.
  repeat (apply reports_ap; [|auto with zod]). auto with zod.
Qed.

#[local] Hint Resolve sound_MatchMetaSchema : zod.

Lemma sound_MatchScriptSchema : sound MatchScriptSchema.
Proof.
  apply sound_z_object. intros.
  repeat (apply reports_ap; [|auto with zod]). auto with zod.
Qed.

Lemma safeParse_failure_nonempty (raw : Raw) (issues : list ZodIssue) :
  safeParse raw = Failure issues -> issues <> [].
Proof.
  intros H. pose proof (sound_MatchScriptSchema [] raw) as Hr.
  unfold safeParse in H. rewrite H in Hr. by destruct issues.
Qed.

(** ** The validator: the verdict *)

Lemma validateScript_verdict (raw : Raw) :
  valid (validateScript raw) = true <-> errors (validateScript raw) = [].
Proof.
  unfold validateScript. destruct (safeParse raw) as [script|issues] eqn:Hp.
  - unfold semanticChecks.
    repeat match goal with |- context [let '(_, _) := ?p in _] => destruct p end.
    simpl. rewrite Nat.eqb_eq. apply length_zero_iff_nil.
  - simpl. apply safeParse_failure_nonempty in Hp.
    split; [done|]. by destruct issues.
Qed.

(** C4.  [validateScript] answers on every document, and its verdict is
    [valid] exactly when it lists no error; the warnings play no part: two
    documents with the same errors get the same verdict whatever their
    warnings. *)
Theorem validateScript_valid_iff_no_errors (raw : Raw) :
  exists r, validateScript raw = r
            /\ (valid r = true <-> errors r = [])
            /\ forall raw', errors (validateScript raw') = errors r ->
                            valid (validateScript raw') = valid r.
Proof.
  exists (validateScript raw). split; [done|].
  split; [apply validateScript_verdict|].
  intros raw' He.
  pose proof (validateScript_verdict raw) as H.
  pose proof (validateScript_verdict raw') as H'.
  rewrite He in H'.
  destruct (valid (validateScript raw)), (valid (validateScript raw')); try done.
  - apply H', H. done.
  - symmetry. apply H, H'. done.
Qed.

(** ** The validator: the length of the field list *)

Lemma refused_ap_l {A B : Type} (f : SafeParse (A -> B)) (a : SafeParse A) :
  refused f -> refused (f <@> a).
Proof. unfold ap. by destruct f as [g|es], a as [v|js]. Qed.

Lemma refused_ap_r {A B : Type} (f : SafeParse (A -> B)) (a : SafeParse A) :
  refused a -> refused (f <@> a).
Proof. unfold ap. by destruct f as [g|es], a as [v|js]. Qed.

Lemma ap_Success {A B : Type} (f : SafeParse (A -> B)) (a : SafeParse A) (v : B) :
  f <@> a = Success v -> exists g x, f = Success g /\ a = Success x /\ v = g x.
Proof.
  unfold ap. destruct f as [g|es], a as [x|js]; try done.
  intros [= <-]. eauto.
Qed.

Lemma parseItems_length {A : Type} (s : Schema A) (path : list string) (i : nat)
    (items : list Raw) (l : list A) :
  parseItems s path i items = Success l -> length l = length items.
Proof.
  revert i l. induction items as [|r rest IH]; intros i l; simpl.
  - by intros [= <-].
  - intros H. apply ap_Success in H as (g & tl & Hg & Htl & ->).
    apply ap_Success in Hg as (c & hd & [= <-] & _ & ->).
    simpl. f_equal. by eapply IH.
Qed.

Lemma TeamSchema_short_field (path : list string) (tprops : list (string * Raw))
    (items : list Raw) :
  prop "field" tprops = RArray items -> length items <> 4%nat ->
  refused (TeamSchema path (RObject tprops)).
Proof.
  intros Hf Hlen. unfold TeamSchema, z_object.
  apply refused_ap_r. unfold key. rewrite Hf. unfold z_array.
  apply refused_ap_l, refused_ap_r.
  by destruct (Nat.eqb_spec (length items) 4) as [E|_].
Qed.

Lemma safeParse_short_field (side : string) (raw : Raw) (items : list Raw) :
  side = "home" \/ side = "away" ->
  fieldOf side raw = Some items -> length items <> 4%nat ->
  refused (safeParse raw).
Proof.
  intros Hside Hf Hlen. unfold fieldOf in Hf.
  destruct raw as [| | | | | |props]; try done.
  destruct (prop "match" props) as [| | | | | |mprops] eqn:Hm; try done.
  destruct (prop side mprops) as [| | | | | |tprops] eqn:Ht; try done.
  destruct (prop "field" tprops) as [| | | | |its|] eqn:Hfld; try done.
  injection Hf as ->.
  unfold safeParse, MatchScriptSchema, z_object.
  apply refused_ap_l, refused_ap_r. unfold key at 1. rewrite Hm.
  unfold MatchMetaSchema, z_object.
  apply refused_ap_l. destruct Hside as [-> | ->].
  - apply refused_ap_l, refused_ap_r. unfold key at 1. rewrite Ht.
    by apply (TeamSchema_short_field ["match"; "home"] tprops items).
  - apply refused_ap_r. unfold key at 1. rewrite Ht.
    by apply (TeamSchema_short_field ["match"; "away"] tprops items).
Qed.

Lemma schemaError_tag (i : ZodIssue) :
  String.prefix "[schema]" (schemaError i) = true
  /\ String.prefix "[formation]" (schemaError i) = false.
Proof. split; reflexivity. Qed.

(** Undoing a chain of [<@>] that ended in a success. *)
Ltac ap_inv H :=
  let g := fresh "g" in
  let v := fresh "v" in
  let Hg := fresh "Hg" in
  let Hv := fresh "Hv" in
  apply ap_Success in H as (g & v & Hg & Hv & ->);
  first [ injection Hg as <- | ap_inv Hg ].

Lemma TeamSchema_four (path : list string) (r : Raw) (t : Team) :
  TeamSchema path r = Success t -> length (field t) = 4%nat.
Proof.
  unfold TeamSchema, z_object. destruct r as [| | | | | |tprops]; try done.
  intros H. ap_inv H. simpl.
  revert Hv. unfold key, z_array.
  destruct (prop "field" tprops) as [| | | | |items|]; try done.
  intros H. ap_inv H. apply parseItems_length in Hv. rewrite Hv.
  revert Hv0. destruct (Nat.eqb_spec (length items) 4) as [E|_]; done.
Qed.

(** The formation check of the validator never fires: a document the schema
    accepts has four field players in each team. *)
Lemma accepted_teams_have_four_field_players (raw : Raw) (script : MatchScript) :
  safeParse raw = Success script ->
  formationErrors (home (match_ script)) = []
  /\ formationErrors (away (match_ script)) = [].
Proof.
  unfold safeParse, MatchScriptSchema, z_object.
  destruct raw as [| | | | | |props]; try done.
  intros H. ap_inv H. simpl.
  revert Hv0. unfold key at 1, MatchMetaSchema, z_object.
  destruct (prop "match" props) as [| | | | | |mprops]; try done.
  intros H. ap_inv H. simpl.
  repeat match goal with
         | H : key _ TeamSchema _ _ = Success _ |- _ =>
             unfold key in H; apply TeamSchema_four in H
         end.
  unfold formationErrors.
  repeat match goal with
         | H : length (field _) = 4%nat |- _ => rewrite H; clear H
         end.
  done.
Qed.

(** ** Strings: prefixes and decimal indexes *)

Lemma append_String (ch : ascii) (a b : string) :
  String ch a +:+ b = String ch (a +:+ b).
Proof. reflexivity. Qed.

Lemma append_Empty (b : string) : "" +:+ b = b.
Proof. reflexivity. Qed.

Lemma append_assoc (a b c : string) : (a +:+ b) +:+ c = a +:+ (b +:+ c).
Proof.
  induction a as [|ch a IH]; [done|]. rewrite !append_String. by f_equal.
Qed.

Lemma prefix_append (p r : string) : String.prefix p (p +:+ r) = true.
Proof.
  induction p as [|ch p IH]; [by destruct r|].
  rewrite append_String. simpl. by destruct (ascii_dec ch ch).
Qed.

Lemma prefix_inv (p s : string) :
  String.prefix p s = true -> exists r, s = p +:+ r.
Proof.
  revert s. induction p as [|ch p IH]; intros s.
  - intros _. by exists s.
  - destruct s as [|c s]; [done|].
    simpl. destruct (ascii_dec ch c) as [->|_]; [|done].
    intros H. destruct (IH s H) as [r ->]. by exists r.
Qed.

Lemma prefix_iff (p s : string) :
  String.prefix p s = true <-> exists r, s = p +:+ r.
Proof.
  split; [apply prefix_inv|]. intros [r ->]. apply prefix_append.
Qed.

Lemma append_inj_r (p a b : string) : p +:+ a = p +:+ b -> a = b.
Proof.
  induction p as [|ch p IH]; [done|]. rewrite !append_String.
  intros [= H]. by apply IH.
Qed.

(** The digits of a decimal stop at the first colon. *)
Lemma string_of_uint_colon (d d' : Decimal.uint) (a b : string) :
  NilEmpty.string_of_uint d +:+ String ":" a
  = NilEmpty.string_of_uint d' +:+ String ":" b ->
  d = d' /\ a = b.
Proof.
  revert d'. induction d as [|d IH|d IH|d IH|d IH|d IH|d IH|d IH|d IH|d IH|d IH];
    intros d'; destruct d'; simpl; rewrite ?append_String, ?append_Empty;
    intros H; try discriminate H;
    injection H as H; try (apply IH in H as [-> ->]); done.
Qed.

Lemma show_nat_colon (i j : nat) (a b : string) :
  show_nat i +:+ String ":" a = show_nat j +:+ String ":" b -> i = j /\ a = b.
Proof.
  unfold show_nat. intros H. apply string_of_uint_colon in H as [H ->].
  split; [|done]. by apply DecimalNat.Unsigned.to_uint_inj.
Qed.

Lemma filter_none (f : string -> bool) (l : list string) :
  Forall (fun e => f e = false) l -> List.filter f l = [].
Proof.
  induction 1 as [|e l He _ IH]; simpl; [done|]. by rewrite He.
Qed.

(** ** The validator: the messages about one event *)

Lemma eventErrors_bodies (knownNames : gset string) (i : nat) (ev : MatchEvent) :
  eventErrors knownNames i ev = map (eventMessage i) (eventBodies knownNames ev).
Proof.
  unfold eventErrors, eventBodies, passBodies, unknownBody.
  rewrite !map_app.
  repeat (f_equal; [by repeat case_match|]).
  destruct (bool_decide (type ev = pass)); [|done].
  rewrite map_app.
  destruct (truthy (from ev)), (truthy (to ev)); done.
Qed.

Lemma passMissing_prefix (i j : nat) (body : string) :
  String.prefix (passMissing i) (eventMessage j body) = true
  <-> i = j /\ String.prefix "pass missing" body = true.
Proof.
  rewrite !prefix_iff. unfold passMissing, eventMessage. split.
  - intros [r H]. rewrite !append_assoc in H.
    apply append_inj_r in H. symmetry in H.
    apply show_nat_colon in H as [-> H].
    split; [done|]. exists r. by injection H as <-.
  - intros [-> [r ->]]. exists r. by rewrite !append_assoc.
Qed.

Lemma passMissing_other (i j : nat) (body : string) :
  i <> j -> String.prefix (passMissing i) (eventMessage j body) = false.
Proof.
  intros Hne. destruct (String.prefix _ _) eqn:E; [|done].
  apply passMissing_prefix in E as [-> _]. done.
Qed.

Lemma passMissing_body (i : nat) (body : string) :
  String.prefix (passMissing i) (eventMessage i body)
  = String.prefix "pass missing" body.
Proof.
  destruct (String.prefix "pass missing" body) eqn:E.
  - by apply passMissing_prefix.
  - destruct (String.prefix (passMissing i) _) eqn:E'; [|done].
    apply passMissing_prefix in E' as [_ E']. congruence.
Qed.

Lemma filter_eventErrors_other (knownNames : gset string) (i j : nat) (ev : MatchEvent) :
  i <> j -> List.filter (String.prefix (passMissing i)) (eventErrors knownNames j ev) = [].
Proof.
  intros Hne. rewrite eventErrors_bodies. apply filter_none.
  apply Forall_forall. intros e He. apply list_elem_of_In, in_map_iff in He.
  destruct He as (body & <- & _). by apply passMissing_other.
Qed.

Lemma filter_map_eventMessage (i : nat) (bodies : list string) :
  List.filter (String.prefix (passMissing i)) (map (eventMessage i) bodies)
  = map (eventMessage i) (List.filter (String.prefix "pass missing") bodies).
Proof.
  induction bodies as [|b rest IH]; [done|].
  cbn [map List.filter]. rewrite passMissing_body, IH.
  by destruct (String.prefix "pass missing" b).
Qed.

Lemma filter_eventBodies (knownNames : gset string) (ev : MatchEvent) :
  List.filter (String.prefix "pass missing") (eventBodies knownNames ev)
  = passBodies ev.
Proof.
  unfold eventBodies.
  assert (Hu : forall o what,
             List.filter (String.prefix "pass missing")
               (unknownBody knownNames o what) = []).
  { intros o what. unfold unknownBody. by repeat case_match. }
  rewrite !List.filter_app, !Hu. simpl.
  destruct (_ && _); simpl; destruct (_ && _); simpl;
    unfold passBodies; destruct (bool_decide (type ev = pass)); try done;
    destruct (truthy (from ev)), (truthy (to ev)); done.
Qed.

Lemma filter_eventErrors_same (knownNames : gset string) (i : nat) (ev : MatchEvent) :
  List.filter (String.prefix (passMissing i)) (eventErrors knownNames i ev)
  = map (eventMessage i) (passBodies ev).
Proof.
  by rewrite eventErrors_bodies, filter_map_eventMessage, filter_eventBodies.
Qed.

Lemma filter_eventLoop_later (knownNames : gset string) (i : nat)
    (evs : list MatchEvent) (k : nat) :
  (i < k)%nat ->
  List.filter (String.prefix (passMissing i)) (eventLoop knownNames k evs) = [].
Proof.
  revert k. induction evs as [|ev rest IH]; intros k Hk; simpl; [done|].
  rewrite List.filter_app, filter_eventErrors_other by lia.
  rewrite IH by lia. done.
Qed.

Lemma filter_eventLoop (knownNames : gset string) (i : nat)
    (evs : list MatchEvent) (k : nat) :
  (k <= i)%nat ->
  List.filter (String.prefix (passMissing i)) (eventLoop knownNames k evs)
  = match evs !! (i - k)%nat with
    | Some ev => map (eventMessage i) (passBodies ev)
    | None => []
    end.
Proof.
  revert k. induction evs as [|ev rest IH]; intros k Hk; simpl; [done|].
  rewrite List.filter_app.
  destruct (decide (k = i)) as [->|Hne].
  - rewrite filter_eventErrors_same, filter_eventLoop_later by lia.
    rewrite Nat.sub_diag. simpl. by rewrite app_nil_r.
  - rewrite filter_eventErrors_other by done.
    rewrite IH by lia. simpl.
    replace (i - k)%nat with (S (i - S k)) by lia. done.
Qed.

(** ** The validator: incomplete passes *)

Lemma addName_untagged (i : nat) (n context : string) (acc : gset string * list string) :
  Forall (fun e => String.prefix (passMissing i) e = false) acc.2 ->
  Forall (fun e => String.prefix (passMissing i) e = false) (addName n context acc).2.
Proof.
  destruct acc as [names errs]. simpl. intros H.
  destruct (bool_decide (n ∈ names)); [|done].
  apply Forall_app. split; [done|]. by constructor.
Qed.

Lemma addFieldNames_untagged (i : nat) (t : Team) (acc : gset string * list string) :
  Forall (fun e => String.prefix (passMissing i) e = false) acc.2 ->
  Forall (fun e => String.prefix (passMissing i) e = false) (addFieldNames t acc).2.
Proof.
  unfold addFieldNames. generalize (field t). intros fld. revert acc.
  induction fld as [|p rest IH]; intros acc H; simpl; [done|].
  apply IH. by apply addName_untagged.
Qed.

Lemma formationErrors_untagged (i : nat) (t : Team) :
  Forall (fun e => String.prefix (passMissing i) e = false) (formationErrors t).
Proof.
  unfold formationErrors. destruct (bool_decide _); [|done]. by constructor.
Qed.

Lemma filter_semanticChecks (script : MatchScript) (i : nat) :
  List.filter (String.prefix (passMissing i)) (errors (semanticChecks script))
  = match events script !! i with
    | Some ev => map (eventMessage i) (passBodies ev)
    | None => []
    end.
Proof.
  unfold semanticChecks.
  match goal with |- context [let '(_, _) := ?p in _] =>
    assert (Hacc : Forall (fun e => String.prefix (passMissing i) e = false) p.2)
      by (repeat first [apply addName_untagged | apply addFieldNames_untagged];
          constructor);
    destruct p as [names errs]
  end.
  simpl in Hacc. simpl errors.
  rewrite !List.filter_app.
  rewrite (filter_none _ errs Hacc).
  rewrite !(filter_none _ _ (formationErrors_untagged i _)).
  rewrite (filter_none _ (if (length (events script) =? 0)%nat then _ else _))
    by (destruct (_ =? _)%nat; [by constructor | done]).
  simpl. rewrite filter_eventLoop by lia. by rewrite Nat.sub_0_r.
Qed.

Lemma passMissing_messages_differ (i : nat) :
  "[events] Event " +:+ show_nat i +:+ ": pass missing 'from'"
  <> "[events] Event " +:+ show_nat i +:+ ": pass missing 'to'".
Proof.
  intros H. apply append_inj_r, append_inj_r in H. discriminate H.
Qed.

Lemma count_occ_filter (f : string -> bool) (l : list string) (e : string) :
  f e = true ->
  count_occ string_dec (List.filter f l) e = count_occ string_dec l e.
Proof.
  intros He. induction l as [|a l IH]; simpl; [done|].
  destruct (f a) eqn:Ha; simpl; destruct (string_dec a e) as [->|Hne];
    try done; try (by rewrite IH). congruence.
Qed.

Lemma count_occ_single_same (e : string) : count_occ string_dec [e] e = 1%nat.
Proof. simpl. by destruct (string_dec e e). Qed.

Lemma count_occ_single_other (a e : string) :
  a <> e -> count_occ string_dec [a] e = 0%nat.
Proof. intros H. simpl. by destruct (string_dec a e). Qed.

(** C8.  For a document the schema accepts and a [pass] event at index [i]:
    the message that [from] is missing is listed exactly once when [from] is
    absent, the message that [to] is missing exactly once when [to] is absent,
    the two messages differ, and the errors reporting that pass as incomplete
    are exactly these, so two when both fields are absent. *)
Theorem pass_missing_fields_reported (raw : Raw) (script : MatchScript) (i : nat)
    (ev : MatchEvent) :
  safeParse raw = Success script -> events script !! i = Some ev -> type ev = pass ->
  let msgFrom := "[events] Event " +:+ show_nat i +:+ ": pass missing 'from'" in
  let msgTo := "[events] Event " +:+ show_nat i +:+ ": pass missing 'to'" in
  let errs := errors (validateScript raw) in
  (from ev = None -> count_occ string_dec errs msgFrom = 1%nat)
  /\ (to ev = None -> count_occ string_dec errs msgTo = 1%nat)
  /\ msgFrom <> msgTo
  /\ String.prefix "[events]" msgFrom = true /\ String.prefix "[events]" msgTo = true
  /\ (from ev = None -> to ev = None ->
      List.filter (String.prefix ("[events] Event " +:+ show_nat i +:+ ": pass missing")) errs
      = [msgFrom; msgTo]).
Proof.
  intros Hp Hev Hty msgFrom msgTo errs.
  assert (Hfilter : List.filter (String.prefix (passMissing i)) errs
                    = ((if truthy (from ev) then [] else [msgFrom])
                       ++ (if truthy (to ev) then [] else [msgTo]))%list).
  { unfold errs, validateScript. rewrite Hp, filter_semanticChecks, Hev.
    unfold passBodies. rewrite Hty. simpl.
    by destruct (truthy (from ev)), (truthy (to ev)). }
  assert (HpF : String.prefix (passMissing i) msgFrom = true).
  { apply (passMissing_prefix i i "pass missing 'from'"). by split. }
  assert (HpT : String.prefix (passMissing i) msgTo = true).
  { apply (passMissing_prefix i i "pass missing 'to'"). by split. }
  pose proof (passMissing_messages_differ i) as Hdiff.
  split; [|split; [|split; [exact Hdiff|split; [reflexivity|split; [reflexivity|]]]]].
  - intros Hf. rewrite <- (count_occ_filter _ _ _ HpF), Hfilter, Hf.
    cbn [truthy]. rewrite count_occ_app, count_occ_single_same.
    destruct (truthy (to ev)); [done|].
    by rewrite count_occ_single_other.
  - intros Ht. rewrite <- (count_occ_filter _ _ _ HpT), Hfilter, Ht.
    cbn [truthy]. rewrite count_occ_app, count_occ_single_same.
    destruct (truthy (from ev)); [done|].
    by rewrite count_occ_single_other.
  - intros Hf Ht. fold (passMissing i). by rewrite Hfilter, Hf, Ht.
Qed.

Lemma pass_missing_fields_reported_witness :
  let script := virtueMatch [kickoff; bareEvent 3 pass; bareEvent 90 fulltime_marker] in
  count_occ string_dec (errors (validateScript (rawScript script)))
    "[events] Event 1: pass missing 'from'" = 1%nat
  /\ count_occ string_dec (errors (validateScript (rawScript script)))
       "[events] Event 1: pass missing 'to'" = 1%nat
  /\ List.filter (String.prefix "[events] Event 1: pass missing")
       (errors (validateScript (rawScript script)))
     = ["[events] Event 1: pass missing 'from'"; "[events] Event 1: pass missing 'to'"].
Proof.
  intros script.
  destruct (pass_missing_fields_reported (rawScript script) script 1 (bareEvent 3 pass))
    as (Hf & Ht & _ & _ & _ & Hboth);
    [vm_compute; reflexivity | reflexivity | reflexivity |].
  split; [exact (Hf eq_refl) | split; [exact (Ht eq_refl) | exact (Hboth eq_refl eq_refl)]].
Defined.

(** * Further properties of the engine *)

(** ** How one event may change a player record

    [R] relates a record to what it may become.  When [R] is a preorder that
    admits the four field updates of the engine ([okPos] says which target
    positions it admits), every event takes every record to a related one and
    neither adds nor removes a name. *)
Section Evolution.

Variable R : PlayerState -> PlayerState -> Prop.
Variable okPos : PitchPosition -> Prop.
Hypothesis R_refl : forall ps, R ps ps.
Hypothesis R_trans : forall a b c, R a b -> R b c -> R a c.
Hypothesis R_hasBall : forall ps b, R ps (set_hasBall b ps).
Hypothesis R_onPitch : forall ps, R ps (set_onPitch false ps).
Hypothesis R_position : forall ps pos, okPos pos -> R ps (set_position pos ps).
Hypothesis R_card : forall ps c, R ps (push_card c ps).

Lemma evolve_refl (m : gmap string PlayerState) (k : string) :
  option_Forall2 R (m !! k) (m !! k).
Proof. destruct (m !! k); constructor. apply R_refl. Qed.

Lemma evolve_insert (m : gmap string PlayerState) (a k : string)
    (ps ps' : PlayerState) :
  m !! a = Some ps -> R ps ps' ->
  option_Forall2 R (m !! k) (<[a := ps']> m !! k).
Proof.
  intros Ha Hr. destruct (decide (a = k)) as [<-|Hne].
  - rewrite lookup_insert_eq, Ha. by constructor.
  - rewrite lookup_insert_ne by done. apply evolve_refl.
Qed.

Lemma evolve_trans (o1 o2 o3 : option PlayerState) :
  option_Forall2 R o1 o2 -> option_Forall2 R o2 o3 -> option_Forall2 R o1 o3.
Proof.
  intros H12 H23. destruct H12; inversion H23; subst; constructor. eauto.
Qed.

Lemma releaseBall_evolves (st : MatchState) (k : string) :
  option_Forall2 R (players st !! k) (players (releaseBall st) !! k).
Proof.
  rewrite releaseBall_lookup. destruct (_ && _); [|apply evolve_refl].
  destruct (players st !! k); constructor. apply R_hasBall.
Qed.

Lemma giveBall_evolves (n : string) (st : MatchState) (k : string) :
  option_Forall2 R (players st !! k) (players (giveBall n st) !! k).
Proof.
  unfold giveBall.
  destruct (players (releaseBall st) !! n) as [ps|] eqn:Hn;
    [|apply releaseBall_evolves].
  simpl. eapply evolve_trans; [apply releaseBall_evolves|].
  eapply evolve_insert; [exact Hn | apply R_hasBall].
Qed.

Lemma applyEvent_evolves (ev : MatchEvent) (st : MatchState) (k : string) :
  (forall pos, position ev = Some pos -> okPos pos) ->
  option_Forall2 R (players st !! k) (players (applyEvent ev st) !! k).
Proof.
  intros Hpos. unfold applyEvent. destruct (type ev); try apply evolve_refl.
  - repeat (case_match; simpl; try apply evolve_refl);
      apply (giveBall_evolves _ (with_ball _ st)).
  - repeat (case_match; simpl; try apply evolve_refl); apply giveBall_evolves.
  - repeat (case_match; simpl; try apply evolve_refl); apply giveBall_evolves.
  - repeat (case_match; simpl; try apply evolve_refl); apply giveBall_evolves.
  - repeat (case_match; simpl; try apply evolve_refl).
    eapply evolve_insert; [eassumption|]. apply R_position. by apply Hpos.
  - repeat (case_match; simpl; try apply evolve_refl).
    + eapply evolve_insert; [eassumption|].
      eapply R_trans; [apply R_onPitch | apply R_hasBall].
    + eapply evolve_insert; [eassumption | apply R_onPitch].
  - repeat (case_match; simpl; try apply evolve_refl).
    eapply evolve_insert; [eassumption | apply R_card].
  - repeat (case_match; simpl; try apply evolve_refl).
Qed.

Lemma replayFrom_evolves (evs : list MatchEvent) (i : nat) (st : MatchState)
    (k : string) :
  Forall (fun ev => forall pos, position ev = Some pos -> okPos pos) evs ->
  option_Forall2 R (players st !! k) (players (replayFrom i evs st) !! k).
Proof.
  intros Hevs. revert i st.
  induction Hevs as [|ev rest Hev _ IH]; intros i st; simpl; [apply evolve_refl|].
  eapply evolve_trans; [|apply IH]. unfold step.
  by apply (applyEvent_evolves ev (with_clock _ (with_eventIndex i st))).
Qed.

End Evolution.

(** ** What a replay never does to a player *)

Lemma option_Forall2_None {A : Type} (R : A -> A -> Prop) (o : option A) :
  option_Forall2 R None o -> o = None.
Proof. by inversion 1. Qed.

Lemma option_Forall2_Some {A : Type} (R : A -> A -> Prop) (a : A) (o : option A) :
  option_Forall2 R (Some a) o -> exists b, o = Some b /\ R a b.
Proof. inversion 1; subst; eauto. Qed.

Lemma replayFrom_identity (evs : list MatchEvent) (i : nat) (st : MatchState)
    (k : string) :
  option_Forall2 sameIdentity (players st !! k) (players (replayFrom i evs st) !! k).
Proof.
  apply (replayFrom_evolves sameIdentity (fun _ => True)); unfold sameIdentity;
    try (intros; simpl; done).
  - intros a b c [H1 H2] [H3 H4]. split; congruence.
  - apply Forall_forall. done.
Qed.

(** X1.  Whatever the events, a replay neither adds a name to the player
    table nor removes one, and the record under a name keeps its participant
    data and its side. *)
Theorem replay_keeps_names_and_sides (evs : list MatchEvent) (i : nat)
    (st : MatchState) (k : string) :
  (players st !! k = None -> players (replayFrom i evs st) !! k = None)
  /\ (forall ps, players st !! k = Some ps ->
                 exists ps', players (replayFrom i evs st) !! k = Some ps'
                             /\ player ps' = player ps /\ team ps' = team ps).
Proof.
  pose proof (replayFrom_identity evs i st k) as H. split.
  - intros Hk. rewrite Hk in H. by apply option_Forall2_None in H.
  - intros ps Hk. rewrite Hk in H.
    apply option_Forall2_Some in H as (ps' & Hps' & Hid & Ht). eauto.
Qed.

(** ** The score *)

Lemma releaseBall_score (st : MatchState) : score (releaseBall st) = score st.
Proof. by destruct (releaseBall_frame st) as (_ & _ & H & _). Qed.

Lemma giveBall_score (n : string) (st : MatchState) :
  score (giveBall n st) = score st.
Proof.
  unfold giveBall. destruct (players (releaseBall st) !! n); simpl;
    apply releaseBall_score.
Qed.

Lemma score_plus_zero (s : Score) :
  s = {| score_home := score_home s + 0; score_away := score_away s + 0 |}.
Proof. destruct s. simpl. by rewrite !Z.add_0_r. Qed.

Lemma applyEvent_score (ev : MatchEvent) (st : MatchState) :
  score (applyEvent ev st)
  = {| score_home := score_home (score st)
                     + (if countsFor (players st) side_home ev then 1 else 0);
       score_away := score_away (score st)
                     + (if countsFor (players st) side_away ev then 1 else 0) |}.
Proof.
  unfold applyEvent, countsFor.
  destruct (type ev); try apply score_plus_zero;
    try (repeat (case_match; simpl; rewrite ?giveBall_score; try apply score_plus_zero);
         fail).
  destruct (actor ev) as [a|]; [|apply score_plus_zero].
  destruct (nonempty a); [|apply score_plus_zero]. simpl.
  destruct (players st !! a) as [ps|]; [|apply score_plus_zero].
  destruct (team ps); simpl; by rewrite Z.add_0_r.
Qed.

Lemma countsFor_identity (m m' : gmap string PlayerState) (t : Side) (ev : MatchEvent) :
  (forall k, option_Forall2 sameIdentity (m !! k) (m' !! k)) ->
  countsFor m' t ev = countsFor m t ev.
Proof.
  intros H. unfold countsFor. destruct (type ev); try done.
  destruct (actor ev) as [a|]; [|done]. f_equal.
  specialize (H a). destruct H as [ps ps' [_ Ht]|]; [|done]. by rewrite Ht.
Qed.

Lemma step_identity (i : nat) (ev : MatchEvent) (st : MatchState) (k : string) :
  option_Forall2 sameIdentity (players st !! k) (players (step i ev st) !! k).
Proof. apply (replayFrom_identity [ev] i st k). Qed.

Lemma identity_trans (o1 o2 o3 : option PlayerState) :
  option_Forall2 sameIdentity o1 o2 -> option_Forall2 sameIdentity o2 o3 ->
  option_Forall2 sameIdentity o1 o3.
Proof.
  apply evolve_trans. intros a b c [H1 H2] [H3 H4]. split; congruence.
Qed.

Lemma replayFrom_score (m0 : gmap string PlayerState) (evs : list MatchEvent)
    (i : nat) (st : MatchState) :
  (forall k, option_Forall2 sameIdentity (m0 !! k) (players st !! k)) ->
  score (replayFrom i evs st)
  = {| score_home := score_home (score st) + countEvents (countsFor m0 side_home) evs;
       score_away := score_away (score st) + countEvents (countsFor m0 side_away) evs |}.
Proof.
  unfold countEvents. revert i st.
  induction evs as [|ev rest IH]; intros i st Hid; simpl.
  - apply score_plus_zero.
  - rewrite IH by (intros k; eapply identity_trans; [apply Hid | apply step_identity]).
    unfold step. rewrite applyEvent_score. simpl.
    rewrite !(countsFor_identity m0 (players st)) by done.
    destruct (countsFor m0 side_home ev), (countsFor m0 side_away ev); simpl;
      f_equal; lia.
Qed.

(** X2.  The final score is the number of goals: each side's counter after
    the run is the number of goal events of the script whose actor is a
    non-empty name of a player of that side in the initial table. *)
Theorem final_score_counts_goals (script : MatchScript) :
  score (run script)
  = {| score_home :=
         countEvents (countsFor (players (initializeState script)) side_home)
           (events script);
       score_away :=
         countEvents (countsFor (players (initializeState script)) side_away)
           (events script) |}.
Proof.
  unfold run.
  rewrite (replayFrom_score (players (initializeState script))).
  - reflexivity.
  - intros k. destruct (players (initializeState script) !! k); constructor.
    by split.
Qed.

(** ** The ball holder *)

Lemma giveBall_holderKnown (n : string) (st : MatchState) :
  holderKnown st -> holderKnown (giveBall n st).
Proof.
  intros Hk h. unfold giveBall.
  destruct (players (releaseBall st) !! n) as [ps|] eqn:Hn; simpl.
  - intros [= <-]. rewrite lookup_insert_eq. eauto.
  - destruct (releaseBall_frame st) as (_ & _ & _ & Hb & _). rewrite Hb.
    intros Hh. apply releaseBall_keeps. by apply Hk.
Qed.

Lemma applyEvent_holderKnown (ev : MatchEvent) (st : MatchState) :
  holderKnown st -> holderKnown (applyEvent ev st).
Proof.
  intros Hk. unfold applyEvent.
  destruct (type ev); try done;
    repeat (case_match; simpl; try done);
    try (intros h [=]; fail);
    try (apply giveBall_holderKnown; done);
    try (intros h Hh; apply insert_keeps; by apply Hk).
Qed.

(** X3.  In every state the engine reaches, [ball.holder] is either null or
    the name of a player of the table: a [players.get(ball.holder)] of a
    dispatcher always finds a record. *)
Theorem reachable_holder_is_a_player (script : MatchScript) (st : MatchState)
    (h : string) :
  reachable script st -> holder (ball st) = Some h ->
  exists ps, players st !! h = Some ps.
Proof.
  intros Hr. revert h. change (holderKnown st).
  induction Hr as [|i ev st Hr IH].
  - intros h [=].
  - unfold step. apply applyEvent_holderKnown. exact IH.
Qed.

Lemma reachable_holder_is_a_player_witness :
  let st := replayFrom 0 (take 4 (events goalThenKickoff))
              (initializeState goalThenKickoff) in
  exists ps, players st !! "Socrates" = Some ps.
Proof.
  intros st.
  apply (reachable_holder_is_a_player goalThenKickoff st "Socrates").
  - apply replayFrom_reachable. constructor.
  - vm_compute. reflexivity.
Defined.

(** ** Handing the ball over *)

Lemma giveBall_known (n : string) (st : MatchState) (ps : PlayerState) :
  players st !! n = Some ps ->
  ball (giveBall n st)
  = {| holder := Some n; ball_position := ps_position ps; dead := false |}
  /\ players (giveBall n st) = <[n := set_hasBall true ps]> (players (releaseBall st))
  /\ score (giveBall n st) = score st /\ clock (giveBall n st) = clock st.
Proof.
  intros Hn. unfold giveBall.
  destruct (releaseBall_frame st) as (_ & Hc & Hs & _).
  pose proof (releaseBall_lookup st n) as Hl. rewrite Hn in Hl.
  destruct (_ && _); simpl in Hl; rewrite Hl; simpl; by rewrite Hc, Hs.
Qed.

Lemma applyEvent_receiver (ev : MatchEvent) (st : MatchState) (n : string) :
  receiver ev = Some n -> n <> "" -> applyEvent ev st = giveBall n st.
Proof.
  unfold receiver, applyEvent. intros Hr Hne. apply nonempty_true in Hne.
  destruct (type ev); try done; by rewrite Hr, Hne.
Qed.

(** X4.  A pass to a player of the table (an intercept or a hold by one)
    hands the ball over whoever held it and whatever [from] says: the ball is
    live at the receiver's position with the receiver as holder, the
    receiver's flag is up, the flag of the previous holder (when [ball.holder]
    was a non-empty name) is down, and no other record, the score or the clock
    changes. *)
Theorem possession_goes_to_receiver (ev : MatchEvent) (st : MatchState) (n : string)
    (ps : PlayerState) :
  receiver ev = Some n -> n <> "" -> players st !! n = Some ps ->
  ball (applyEvent ev st)
  = {| holder := Some n; ball_position := ps_position ps; dead := false |}
  /\ players (applyEvent ev st) !! n = Some (set_hasBall true ps)
  /\ (forall k, k <> n ->
        players (applyEvent ev st) !! k
        = if bool_decide (holder (ball st) = Some k) && nonempty k
          then set_hasBall false <$> players st !! k
          else players st !! k)
  /\ score (applyEvent ev st) = score st
  /\ clock (applyEvent ev st) = clock st.
Proof.
  intros Hr Hne Hn. rewrite (applyEvent_receiver ev st n Hr Hne).
  destruct (giveBall_known n st ps Hn) as (Hb & Hp & Hs & Hc).
  rewrite Hb, Hp, Hs, Hc. split; [done|].
  split; [apply lookup_insert_eq|].
  split; [|done]. intros k Hk. rewrite lookup_insert_ne by done.
  apply releaseBall_lookup.
Qed.

Lemma possession_goes_to_receiver_witness :
  let st := step 0 kickoff (initializeState (virtueMatch [])) in
  let st' := applyEvent (passTo 5 "Kant" "Plato") st in
  holder (ball st') = Some "Plato"
  /\ players st' !! "Socrates"
     = Some (newPlayerState (mkPlayer "Socrates" role_tender "v1") side_home (mkPos (-46) 0)).
Proof.
  intros st st'.
  destruct (possession_goes_to_receiver (passTo 5 "Kant" "Plato") st "Plato"
              (newPlayerState (mkPlayer "Plato" role_defender "v2") side_home
                 (mkPos (-30) 0)))
    as (Hb & _ & Hk & _);
    [reflexivity | discriminate | vm_compute; reflexivity |].
  split.
  - unfold st'. rewrite Hb. reflexivity.
  - unfold st'. rewrite (Hk "Socrates") by discriminate. vm_compute. reflexivity.
Defined.

(** ** The clock during a replay *)

Lemma giveBall_frame (n : string) (st : MatchState) :
  clock (giveBall n st) = clock st
  /\ eventIndex (giveBall n st) = eventIndex st
  /\ totalEvents (giveBall n st) = totalEvents st.
Proof.
  unfold giveBall. destruct (releaseBall_frame st) as (_ & Hc & _ & _ & Hi & Ht).
  by destruct (players (releaseBall st) !! n).
Qed.

Lemma applyEvent_cursor (ev : MatchEvent) (st : MatchState) :
  eventIndex (applyEvent ev st) = eventIndex st
  /\ totalEvents (applyEvent ev st) = totalEvents st
  /\ clock_minute (clock (applyEvent ev st)) = clock_minute (clock st)
  /\ clock_added (clock (applyEvent ev st)) = clock_added (clock st).
Proof.
  unfold applyEvent.
  destruct (type ev); try done;
    repeat (case_match; simpl; try done).
  all: match goal with
    | |- context [giveBall ?n ?s] =>
        let Hc := fresh "Hc" in
        let Hi := fresh "Hi" in
        let Ht := fresh "Ht" in
        destruct (giveBall_frame n s) as (Hc & Hi & Ht);
        rewrite ?Hc, ?Hi, ?Ht; done
    end.
Qed.




(** ** The replay cursor *)

Lemma step_cursor (i : nat) (ev : MatchEvent) (st : MatchState) :
  eventIndex (step i ev st) = i
  /\ totalEvents (step i ev st) = totalEvents st
  /\ meta (step i ev st) = meta st
  /\ clock_minute (clock (step i ev st)) = minute ev
  /\ clock_added (clock (step i ev st)) = default 0 (added ev).
Proof.
  unfold step.
  destruct (applyEvent_cursor ev
              (with_clock (advanceClock (clock st) (minute ev) (added ev))
                 (with_eventIndex i st))) as (-> & -> & -> & ->).
  by rewrite applyEvent_meta.
Qed.

Lemma replayFrom_frame (evs : list MatchEvent) (i : nat) (st : MatchState) :
  totalEvents (replayFrom i evs st) = totalEvents st
  /\ meta (replayFrom i evs st) = meta st.
Proof.
  revert i st. induction evs as [|ev rest IH]; intros i st; simpl; [done|].
  destruct (IH (S i) (step i ev st)) as [-> ->].
  by destruct (step_cursor i ev st) as (_ & -> & -> & _).
Qed.

Lemma replayFrom_last (evs : list MatchEvent) (i : nat) (st : MatchState)
    (ev : MatchEvent) :
  last evs = Some ev ->
  eventIndex (replayFrom i evs st) = (i + length evs - 1)%nat
  /\ clock_minute (clock (replayFrom i evs st)) = minute ev
  /\ clock_added (clock (replayFrom i evs st)) = default 0 (added ev).
Proof.
  revert i st. induction evs as [|e rest IH]; intros i st; [done|].
  destruct rest as [|e' rest'].
  - simpl. intros [= ->].
    destruct (step_cursor i ev st) as (-> & _ & _ & -> & ->).
    split; [lia | done].
  - rewrite last_cons_cons. intros Hl.
    change (replayFrom i (e :: e' :: rest') st)
      with (replayFrom (S i) (e' :: rest') (step i e st)).
    destruct (IH (S i) (step i e st) Hl) as (-> & -> & ->).
    split; [simpl; lia | done].
Qed.

(** X6.  After the run of a script with at least one event, the cursor is on
    the last event, the clock carries that event's minute and added time (0
    when it has none), and the event total and the match metadata are those
    of the script. *)
Theorem run_stops_on_last_event (script : MatchScript) (ev : MatchEvent) :
  last (events script) = Some ev ->
  eventIndex (run script) = (length (events script) - 1)%nat
  /\ clock_minute (clock (run script)) = minute ev
  /\ clock_added (clock (run script)) = default 0 (added ev)
  /\ totalEvents (run script) = length (events script)
  /\ meta (run script) = match_ script.
Proof.
  intros Hl. unfold run.
  destruct (replayFrom_last (events script) 0 (initializeState script) ev Hl)
    as (-> & -> & ->).
  destruct (replayFrom_frame (events script) 0 (initializeState script)) as [-> ->].
  done.
Qed.

Lemma run_stops_on_last_event_witness :
  eventIndex (run goalThenKickoff) = 4%nat
  /\ clock_minute (clock (run goalThenKickoff)) = 90.
Proof.
  destruct (run_stops_on_last_event goalThenKickoff (bareEvent 90 fulltime_marker))
    as (Hi & Hm & _); [reflexivity|].
  split; [exact Hi | exact Hm].
Defined.

(** ** The initial table *)

Lemma setFieldPlayers_notin (t : Side) (slots : list PitchPosition) (fld : list Player)
    (i : nat) (m : gmap string PlayerState) (k : string) :
  k ∉ (name <$> fld) -> setFieldPlayers t slots i fld m !! k = m !! k.
Proof.
  revert i m. induction fld as [|p rest IH]; intros i m Hk; simpl; [done|].
  rewrite fmap_cons, not_elem_of_cons in Hk. destruct Hk as [Hne Hk].
  rewrite IH by done. by apply lookup_insert_ne.
Qed.

Lemma setFieldPlayers_in (t : Side) (slots : list PitchPosition) (fld : list Player)
    (i : nat) (m : gmap string PlayerState) (j : nat) (p : Player) :
  NoDup (name <$> fld) -> fld !! j = Some p ->
  setFieldPlayers t slots i fld m !! name p
  = Some (newPlayerState p t (fieldPosition slots (i + j))).
Proof.
  revert i m j. induction fld as [|q rest IH]; intros i m j Hnd Hj; [done|].
  rewrite fmap_cons, NoDup_cons in Hnd. destruct Hnd as [Hq Hnd].
  destruct j as [|j]; simpl in Hj.
  - injection Hj as ->. simpl. rewrite setFieldPlayers_notin by done.
    rewrite lookup_insert_eq. by rewrite Nat.add_0_r.
  - simpl. rewrite (IH (S i) _ j Hnd Hj). do 3 f_equal. lia.
Qed.

Lemma NoDup_playerNames (m : MatchMeta) :
  forall hn an, hn = name (tender (home m)) -> an = name (tender (away m)) ->
  NoDup (playerNames m) ->
  NoDup (name <$> field (home m)) /\ NoDup (name <$> field (away m))
  /\ (hn ∉ (name <$> field (home m))) /\ (an ∉ (name <$> field (away m)))
  /\ hn <> an /\ (hn ∉ (name <$> field (away m)))
  /\ (forall k, k ∈ (name <$> field (home m)) ->
                k <> an /\ (k ∉ (name <$> field (away m)))).
Proof.
  unfold playerNames. intros hn an <- <- H.
  apply NoDup_app in H as (Hh & Hdis & Ha).
  apply NoDup_cons in Hh as [Hh1 Hh2]. apply NoDup_cons in Ha as [Ha1 Ha2].
  split; [done|]. split; [done|]. split; [done|]. split; [done|].
  assert (Hd : forall k, k ∈ hn :: (name <$> field (home m)) ->
                         k <> an /\ (k ∉ (name <$> field (away m)))).
  { intros k Hk. apply Hdis in Hk. by rewrite not_elem_of_cons in Hk. }
  split; [apply Hd; by left|]. split; [apply Hd; by left|].
  intros k Hk. apply Hd. by right.
Qed.

(** X7.  For a script with four field players in each team and ten pairwise
    distinct player names, the initial table has exactly one record per
    player: the tenders at their goal-side spot and the [j]-th field player of
    a team at the [j]-th slot of the team's formation (defender, left and
    right midfielder, forward), each on its own side, on the pitch, without
    ball or card; no other name is in the table. *)
Theorem initial_table_has_one_record_per_player (script : MatchScript) :
  length (field (home (match_ script))) = 4%nat ->
  length (field (away (match_ script))) = 4%nat ->
  NoDup (playerNames (match_ script)) ->
  let m := match_ script in
  let tbl := players (initializeState script) in
  tbl !! name (tender (home m))
  = Some (newPlayerState (tender (home m)) side_home (mkPos (-46) 0))
  /\ tbl !! name (tender (away m))
     = Some (newPlayerState (tender (away m)) side_away (mkPos 46 0))
  /\ (forall j p, field (home m) !! j = Some p ->
        exists pos, fieldSlots (defaultPositions side_home) !! j = Some pos
                    /\ tbl !! name p = Some (newPlayerState p side_home pos))
  /\ (forall j p, field (away m) !! j = Some p ->
        exists pos, fieldSlots (defaultPositions side_away) !! j = Some pos
                    /\ tbl !! name p = Some (newPlayerState p side_away pos))
  /\ (forall k, k ∉ playerNames m -> tbl !! k = None).
Proof.
  intros Hlh Hla Hnd m tbl.
  destruct (NoDup_playerNames m _ _ eq_refl eq_refl Hnd)
    as (Hh & Ha & Hht & Hat & Hne & Hhta & Hdis).
  assert (Hslot : forall t fld j (p : Player),
             length fld = 4%nat -> fld !! j = Some p ->
             exists pos, fieldSlots (defaultPositions t) !! j = Some pos
                         /\ fieldPosition (fieldSlots (defaultPositions t)) j = pos).
  { intros t fld j p Hlen Hj. apply lookup_lt_Some in Hj. rewrite Hlen in Hj.
    unfold fieldPosition.
    destruct (lookup_lt_is_Some_2 (fieldSlots (defaultPositions t)) j) as [pos Hpos];
      [simpl; lia|].
    exists pos. by rewrite Hpos. }
  unfold tbl, initializeState. cbn [players]. fold m.
  split; [|split; [|split; [|split]]].
  - rewrite setFieldPlayers_notin by done.
    rewrite lookup_insert_ne by done.
    rewrite setFieldPlayers_notin by done. apply lookup_insert_eq.
  - rewrite setFieldPlayers_notin by done. apply lookup_insert_eq.
  - intros j p Hj.
    assert (Hin : name p ∈ (name <$> field (home m))).
    { apply list_elem_of_fmap_2, list_elem_of_lookup. eauto. }
    destruct (Hdis _ Hin) as [Hpa Hpf].
    destruct (Hslot side_home _ j p Hlh Hj) as (pos & Hpos & Hfp).
    exists pos. split; [done|].
    rewrite setFieldPlayers_notin by done.
    rewrite lookup_insert_ne by done.
    rewrite (setFieldPlayers_in _ _ _ 0 _ j p Hh Hj). simpl. by rewrite Hfp.
  - intros j p Hj.
    destruct (Hslot side_away _ j p Hla Hj) as (pos & Hpos & Hfp).
    exists pos. split; [done|].
    rewrite (setFieldPlayers_in _ _ _ 0 _ j p Ha Hj). simpl. by rewrite Hfp.
  - intros k Hk. unfold playerNames in Hk.
    rewrite not_elem_of_app, !not_elem_of_cons in Hk.
    destruct Hk as [[Hk1 Hk2] [Hk3 Hk4]].
    rewrite setFieldPlayers_notin by done.
    rewrite lookup_insert_ne by done.
    rewrite setFieldPlayers_notin by done.
    by rewrite lookup_insert_ne.
Qed.

Lemma initial_table_has_one_record_per_player_witness :
  players (initializeState (virtueMatch [])) !! "Zeno"
  = Some (newPlayerState (mkPlayer "Zeno" role_midfielder "v4") side_home (mkPos (-15) 12))
  /\ players (initializeState (virtueMatch [])) !! "Minerva" = None.
Proof.
  assert (Hnd : NoDup (playerNames (match_ (virtueMatch [])))).
  { apply (bool_decide_unpack _). vm_compute. exact I. }
  destruct (initial_table_has_one_record_per_player (virtueMatch [])
              eq_refl eq_refl Hnd)
    as (_ & _ & Hf & _ & Hn).
  split.
  - destruct (Hf 2%nat (mkPlayer "Zeno" role_midfielder "v4") eq_refl)
      as (pos & Hpos & Htbl).
    injection Hpos as <-. exact Htbl.
  - apply Hn. apply (bool_decide_unpack _). vm_compute. exact I.
Defined.

(** * Further properties of the schema *)

Lemma checked_Success {A : Type} (es : list ZodIssue) (v w : A) :
  checked es v = Success w -> es = [] /\ w = v.
Proof. destruct es; simpl; [by intros [= ->] | done]. Qed.

Lemma z_number_Success (checks : list ((Z -> bool) * string)) (path : list string)
    (r : Raw) (n : Z) :
  z_number checks path r = Success n ->
  r = RNumber n /\ Forall (fun c : (Z -> bool) * string => c.1 n = true) checks.
Proof.
  unfold z_number. destruct r as [| | |k| | |]; try done.
  intros H. apply checked_Success in H as [H <-]. split; [done|].
  induction checks as [|c rest IH]; [constructor|].
  simpl in H. destruct (c.1 n) eqn:Hc; [|done].
  constructor; [done | by apply IH].
Qed.

Lemma z_optional_Success {A : Type} (s : Schema A) (path : list string) (r : Raw)
    (o : option A) :
  z_optional s path r = Success o ->
  o = None \/ exists v, o = Some v /\ s path r = Success v.
Proof.
  unfold z_optional. destruct r;
    try (intros H; apply ap_Success in H as (g & v & [= <-] & Hv & ->); eauto; fail).
  intros [= <-]. by left.
Qed.

Lemma PitchPositionSchema_Success (path : list string) (r : Raw) (pos : PitchPosition) :
  PitchPositionSchema path r = Success pos -> onPitchArea pos.
Proof.
  unfold PitchPositionSchema, z_object. destruct r as [| | | | | |props]; try done.
  intros H. ap_inv H. unfold key in *.
  repeat match goal with
         | H : z_number _ _ _ = Success _ |- _ =>
             apply z_number_Success in H as [_ H];
             rewrite !Forall_cons in H; simpl in H
         end.
  unfold onPitchArea. simpl. lia.
Qed.

Lemma MatchEventSchema_Success (path : list string) (r : Raw) (ev : MatchEvent) :
  MatchEventSchema path r = Success ev -> eventInRange ev.
Proof.
  unfold MatchEventSchema, z_object. destruct r as [| | | | | |props]; try done.
  intros H. ap_inv H. unfold key in *. unfold eventInRange. simpl.
  repeat match goal with
         | H : z_number _ _ _ = Success _ |- _ =>
             apply z_number_Success in H as [_ H];
             rewrite !Forall_cons in H; simpl in H
         end.
  split; [lia|]. split.
  - intros a ->.
    match goal with
    | H : z_optional (z_number _) _ _ = Success (Some a) |- _ =>
        apply z_optional_Success in H as [H | (b & [= <-] & H)]; [done|];
        apply z_number_Success in H as [_ H];
        rewrite !Forall_cons in H; simpl in H
    end.
    lia.
  - intros pos ->.
    match goal with
    | H : z_optional PitchPositionSchema _ _ = Success (Some pos) |- _ =>
        apply z_optional_Success in H as [H | (b & [= <-] & H)]; [done|];
        by apply PitchPositionSchema_Success in H
    end.
Qed.

Lemma parseItems_Forall {A : Type} (s : Schema A) (P : A -> Prop) (path : list string)
    (i : nat) (items : list Raw) (l : list A) :
  (forall p r v, s p r = Success v -> P v) ->
  parseItems s path i items = Success l -> Forall P l.
Proof.
  intros Hs. revert i l. induction items as [|r rest IH]; intros i l; simpl.
  - intros [= <-]. constructor.
  - intros H. ap_inv H. constructor; eauto.
Qed.

Lemma safeParse_in_range (raw : Raw) (script : MatchScript) :
  safeParse raw = Success script ->
  Forall eventInRange (events script)
  /\ 0 < season (match_ script)
  /\ matches_id (id (match_ script)) = true
  /\ (forall t, t = home (match_ script) \/ t = away (match_ script) ->
        length (field t) = 4%nat).
Proof.
  unfold safeParse, MatchScriptSchema, z_object.
  destruct raw as [| | | | | |props]; try done.
  intros H. ap_inv H. simpl.
  match goal with
  | H : key "events" _ _ _ = Success _ |- _ =>
      unfold key, z_array in H;
      destruct (prop "events" props) as [| | | | |items|]; try done;
      ap_inv H;
      match goal with
      | H' : parseItems _ _ _ _ = Success _ |- _ =>
          apply (parseItems_Forall _ eventInRange) in H';
          [|apply MatchEventSchema_Success]
      end
  end.
  split; [done|].
  match goal with
  | H : key "match" _ _ _ = Success _ |- _ =>
      unfold key at 1, MatchMetaSchema, z_object in H;
      destruct (prop "match" props) as [| | | | | |mprops]; try done;
      ap_inv H
  end.
  simpl. unfold key in *.
  repeat match goal with
         | H : z_number _ _ _ = Success _ |- _ =>
             apply z_number_Success in H as [_ H];
             rewrite !Forall_cons in H; simpl in H
         end.
  split; [lia|]. split.
  - match goal with
    | H : z_id _ _ = Success _ |- _ =>
        unfold z_id in H; destruct (prop "id" mprops); try done;
        apply checked_Success in H as [H ->]
    end.
    by destruct (matches_id s).
  - intros t [-> | ->];
      match goal with
      | H : TeamSchema _ _ = Success ?t |- context [field ?t] =>
          exact (TeamSchema_four _ _ _ H)
      end.
Qed.

(** X8.  What a document the schema accepts is known to satisfy: every event
    has its minute in 0..90, a non-negative added time and a target position
    within the pitch ranges when it has one; the season is positive and the
    identifier has the form S<digits>M<digits>; each team has four field
    players. *)
Theorem accepted_document_is_in_range (raw : Raw) (script : MatchScript) :
  safeParse raw = Success script ->
  Forall eventInRange (events script)
  /\ 0 < season (match_ script)
  /\ matches_id (id (match_ script)) = true
  /\ (forall t, t = home (match_ script) \/ t = away (match_ script) ->
        length (field t) = 4%nat).
Proof. apply safeParse_in_range. Qed.

Lemma accepted_document_is_in_range_witness :
  Forall eventInRange (events goalThenKickoff)
  /\ 0 < season (match_ goalThenKickoff)
  /\ length (field (away (match_ goalThenKickoff))) = 4%nat.
Proof.
  destruct (accepted_document_is_in_range (rawScript goalThenKickoff) goalThenKickoff)
    as (Hev & Hs & _ & Ht); [vm_compute; reflexivity|].
  split; [exact Hev|]. split; [exact Hs|]. apply Ht. by right.
Defined.

(** ** Positions stay on the pitch *)

Lemma center_inside : onPitchArea center.
Proof. unfold onPitchArea. simpl. lia. Qed.

Lemma fieldPosition_inside (slots : list PitchPosition) (i : nat) :
  Forall onPitchArea slots -> onPitchArea (fieldPosition slots i).
Proof.
  intros H. unfold fieldPosition. destruct (slots !! i) as [p|] eqn:Hp; simpl.
  - eapply Forall_lookup_1; eauto.
  - apply center_inside.
Qed.

Lemma fieldSlots_inside (t : Side) : Forall onPitchArea (fieldSlots (defaultPositions t)).
Proof.
  destruct t; repeat constructor; unfold onPitchArea; simpl; lia.
Qed.

Lemma setFieldPlayers_inside (t : Side) (slots : list PitchPosition) (fld : list Player)
    (i : nat) (m : gmap string PlayerState) :
  Forall onPitchArea slots ->
  (forall k ps, m !! k = Some ps -> onPitchArea (ps_position ps)) ->
  forall k ps, setFieldPlayers t slots i fld m !! k = Some ps ->
               onPitchArea (ps_position ps).
Proof.
  intros Hs. revert i m. induction fld as [|p rest IH]; intros i m Hm; simpl; [done|].
  apply IH. intros k ps. destruct (decide (name p = k)) as [->|Hne].
  - rewrite lookup_insert_eq. intros [= <-]. simpl. by apply fieldPosition_inside.
  - rewrite lookup_insert_ne by done. apply Hm.
Qed.

Lemma initializeState_allInside (script : MatchScript) :
  allInside (initializeState script).
Proof.
  split; [apply center_inside|]. simpl.
  apply setFieldPlayers_inside; [apply fieldSlots_inside|].
  intros k ps. destruct (decide (name (tender (away (match_ script))) = k)) as [->|Hne].
  { rewrite lookup_insert_eq. intros [= <-]. unfold onPitchArea. simpl. lia. }
  rewrite lookup_insert_ne by done. revert k ps Hne.
  intros k ps _. revert k ps.
  apply setFieldPlayers_inside; [apply fieldSlots_inside|].
  intros k ps. destruct (decide (name (tender (home (match_ script))) = k)) as [->|Hne].
  { rewrite lookup_insert_eq. intros [= <-]. unfold onPitchArea. simpl. lia. }
  rewrite lookup_insert_ne by done. by rewrite lookup_empty.
Qed.

Lemma staysInside_preorder :
  (forall ps, staysInside ps ps)
  /\ (forall a b c, staysInside a b -> staysInside b c -> staysInside a c).
Proof. unfold staysInside. split; auto. Qed.

Lemma inside_after (o o' : option PlayerState) :
  option_Forall2 staysInside o o' ->
  (forall ps, o = Some ps -> onPitchArea (ps_position ps)) ->
  forall ps', o' = Some ps' -> onPitchArea (ps_position ps').
Proof.
  intros H Ho ps' ->. inversion H as [ps ? Hr E1 E2|]; subst.
  apply Hr. by apply Ho.
Qed.

Lemma releaseBall_staysInside (st : MatchState) (k : string) :
  option_Forall2 staysInside (players st !! k) (players (releaseBall st) !! k).
Proof. apply releaseBall_evolves; unfold staysInside; auto. Qed.

Lemma giveBall_allInside (n : string) (st : MatchState) :
  allInside st -> allInside (giveBall n st).
Proof.
  intros [Hb Hp]. split.
  - unfold giveBall.
    destruct (players (releaseBall st) !! n) as [ps|] eqn:Hn; simpl.
    + eapply (inside_after _ _ (releaseBall_staysInside st n)); [apply Hp | exact Hn].
    + by destruct (releaseBall_frame st) as (_ & _ & _ & -> & _).
  - intros k. eapply inside_after; [|apply Hp].
    apply giveBall_evolves; unfold staysInside; auto.
Qed.

Lemma applyEvent_allInside (ev : MatchEvent) (st : MatchState) :
  (forall pos, position ev = Some pos -> onPitchArea pos) ->
  allInside st -> allInside (applyEvent ev st).
Proof.
  intros Hpos [Hb Hp]. split.
  - unfold applyEvent.
    destruct (type ev); try done; try apply center_inside;
      repeat (case_match; simpl; try done; try apply center_inside);
      by apply giveBall_allInside.
  - intros k. eapply inside_after; [|apply Hp].
    apply (applyEvent_evolves staysInside onPitchArea); unfold staysInside; auto.
Qed.

Lemma replayFrom_allInside (evs : list MatchEvent) (i : nat) (st : MatchState) :
  Forall (fun ev => forall pos, position ev = Some pos -> onPitchArea pos) evs ->
  allInside st -> allInside (replayFrom i evs st).
Proof.
  intros Hevs. revert i st.
  induction Hevs as [|ev rest Hev _ IH]; intros i st Hst; simpl; [done|].
  apply IH. unfold step. apply applyEvent_allInside; [done|].
  destruct Hst as [Hb Hp]. by split.
Qed.

(** X9.  During the replay of a document the schema accepted, the ball and
    every player are within the ranges of a pitch position (x in -50..50,
    y in -35..35) after each event. *)
Theorem replay_stays_on_the_pitch (raw : Raw) (script : MatchScript) (n : nat) :
  safeParse raw = Success script ->
  allInside (replayFrom 0 (take n (events script)) (initializeState script)).
Proof.
  intros Hp. apply replayFrom_allInside; [|apply initializeState_allInside].
  apply Forall_take.
  destruct (safeParse_in_range raw script Hp) as [H _].
  eapply Forall_impl; [exact H|]. intros ev (_ & _ & Hpos). exact Hpos.
Qed.

Lemma replay_stays_on_the_pitch_witness :
  let script :=
    virtueMatch [kickoff;
                 withPosition (mkPos 50 (-35)) (withActor "Socrates" (bareEvent 4 move));
                 passTo 5 "Socrates" "Socrates"] in
  allInside (replayFrom 0 (take 3 (events script)) (initializeState script)).
Proof.
  intros script.
  apply (replay_stays_on_the_pitch (rawScript script) script 3).
  vm_compute. reflexivity.
Defined.

(** * Further properties of the validator *)

(** ** The identity pass *)

Lemma tracks_nil : tracks [] (∅, []).
Proof.
  split; [done|]. split; [done|]. split; [|constructor].
  split; [intros _; constructor | done].
Qed.

Lemma tracks_addName (seen : list string) (acc : gset string * list string)
    (n context : string) :
  tracks seen acc -> tracks (seen ++ [n]) (addName n context acc).
Proof.
  destruct acc as [names errs]. intros (Hset & Hlen & Hnd & Htag). simpl in *.
  subst names. split; [|split; [|split]].
  - simpl. rewrite list_to_set_app_L. simpl. by rewrite union_empty_r_L.
  - simpl. rewrite length_app. simpl.
    destruct (bool_decide_reflect (n ∈ (list_to_set seen : gset string))) as [Hin|Hin].
    + rewrite length_app. simpl.
      replace (list_to_set seen ∪ {[n]}) with (list_to_set seen : gset string)
        by set_solver.
      lia.
    + rewrite size_union by set_solver. rewrite size_singleton. lia.
  - simpl. rewrite NoDup_app.
    destruct (bool_decide_reflect (n ∈ (list_to_set seen : gset string))) as [Hin|Hin].
    + split; [by destruct errs|].
      intros (_ & Hdis & _). rewrite elem_of_list_to_set in Hin.
      destruct (Hdis n Hin). by left.
    + rewrite Hnd. rewrite elem_of_list_to_set in Hin. split.
      * intros H. split; [done|]. split; [|apply NoDup_singleton].
        intros y Hy Hy'. apply list_elem_of_singleton in Hy'. by subst.
      * by intros (H & _).
  - simpl. destruct (bool_decide _); [|done].
    apply Forall_app. split; [done|]. by constructor.
Qed.

Lemma tracks_addFieldNames (seen : list string) (acc : gset string * list string)
    (t : Team) :
  tracks seen acc -> tracks (seen ++ (name <$> field t)) (addFieldNames t acc).
Proof.
  unfold addFieldNames. generalize (field t). intros fld. revert seen acc.
  induction fld as [|p rest IH]; intros seen acc H.
  - simpl. by rewrite app_nil_r.
  - rewrite fmap_cons. cbn [fold_left]. rewrite cons_middle, app_assoc.
    apply IH. by apply tracks_addName.
Qed.

(** The errors and warnings of [semanticChecks], part by part. *)
Lemma semanticChecks_parts (script : MatchScript) :
  let m := match_ script in
  let evs := events script in
  exists acc,
    tracks (participantNames m) acc
    /\ errors (semanticChecks script)
       = (((acc.2 ++ formationErrors (home m) ++ formationErrors (away m))
           ++ (if (length evs =? 0)%nat then ["[events] Match has no events"] else []))
          ++ eventLoop (knownNamesOf m) 0 evs)%list
    /\ valid (semanticChecks script)
       = (length (errors (semanticChecks script)) =? 0)%nat.
Proof.
  intros m evs. unfold semanticChecks, knownNamesOf. fold m evs.
  match goal with |- context [let '(_, _) := ?p in _] =>
    assert (Hacc : tracks (participantNames m) p);
    [|destruct p as [names errs] eqn:E]
  end.
  { replace (participantNames m)
      with ((((((([] ++ [name (tender (home m))]) ++ (name <$> field (home m)))
                ++ [name (tender (away m))]) ++ (name <$> field (away m)))
              ++ [official_name (referee (officials m))])
             ++ [official_name (pbp (officials m))])
            ++ [official_name (color (officials m))])%list.
    - repeat first [apply tracks_addName | apply tracks_addFieldNames].
      apply tracks_nil.
    - unfold participantNames. simpl. by rewrite <- !app_assoc. }
  exists (names, errs). split; [done|]. destruct Hacc as (Hn & _). simpl in Hn.
  simpl. by rewrite Hn.
Qed.

Lemma filter_all (f : string -> bool) (l : list string) :
  Forall (fun e => f e = true) l -> List.filter f l = l.
Proof.
  induction 1 as [|e l He _ IH]; simpl; [done|]. by rewrite He, IH.
Qed.

Lemma eventLoop_not_identity (known : gset string) (i : nat) (evs : list MatchEvent) :
  Forall (fun e => String.prefix "[identity]" e = false) (eventLoop known i evs).
Proof.
  revert i. induction evs as [|ev rest IH]; intros i; simpl; [constructor|].
  apply Forall_app. split; [|apply IH].
  rewrite eventErrors_bodies. apply Forall_forall. intros e He.
  apply list_elem_of_In, in_map_iff in He. by destruct He as (body & <- & _).
Qed.

Lemma identityErrors_semanticChecks (script : MatchScript) :
  exists acc, tracks (participantNames (match_ script)) acc
              /\ identityErrors (errors (semanticChecks script)) = acc.2.
Proof.
  destruct (semanticChecks_parts script) as (acc & Ht & He & _).
  exists acc. split; [done|]. rewrite He. unfold identityErrors.
  rewrite !List.filter_app.
  destruct Ht as (_ & _ & _ & Htag). rewrite (filter_all _ _ Htag).
  rewrite (filter_none _ (formationErrors (home _)))
    by (unfold formationErrors; destruct (bool_decide _); by repeat constructor).
  rewrite (filter_none _ (formationErrors (away _)))
    by (unfold formationErrors; destruct (bool_decide _); by repeat constructor).
  match goal with
  | |- context [List.filter ?f (if ?c then ?a else ?b)] =>
      rewrite (filter_none f (if c then a else b))
        by (destruct c; by repeat constructor)
  end.
  rewrite (filter_none _ _ (eventLoop_not_identity _ _ _)).
  by rewrite !app_nil_r.
Qed.

(** ** The formation check *)

Lemma identity_not_formation (e : string) :
  String.prefix "[identity]" e = true -> String.prefix "[formation]" e = false.
Proof. intros [r ->]%prefix_inv. reflexivity. Qed.

Lemma eventLoop_not_formation (known : gset string) (i : nat) (evs : list MatchEvent) :
  Forall (fun e => String.prefix "[formation]" e = false) (eventLoop known i evs).
Proof.
  revert i. induction evs as [|ev rest IH]; intros i; simpl; [constructor|].
  apply Forall_app. split; [|apply IH].
  rewrite eventErrors_bodies. apply Forall_forall. intros e He.
  apply list_elem_of_In, in_map_iff in He. by destruct He as (body & <- & _).
Qed.

(** No document at all gets a [[formation]] error: the schema has turned
    down every document the check could fire on. *)
Lemma formation_check_never_fires (raw : Raw) :
  List.filter (String.prefix "[formation]") (errors (validateScript raw)) = [].
Proof.
  unfold validateScript. destruct (safeParse raw) as [script|issues] eqn:Hp.
  - destruct (semanticChecks_parts script) as (acc & Ht & He & _).
    destruct (accepted_teams_have_four_field_players raw script Hp) as [Hh Ha].
    rewrite He, Hh, Ha. rewrite !List.filter_app. simpl.
    destruct Ht as (_ & _ & _ & Htag).
    rewrite (filter_none _ acc.2)
      by (eapply Forall_impl; [exact Htag | apply identity_not_formation]).
    rewrite (filter_none _ _ (eventLoop_not_formation _ _ _)).
    by destruct (length (events script) =? 0)%nat.
  - simpl. apply filter_none, Forall_forall. intros e He.
    apply list_elem_of_In, in_map_iff in He.
    destruct He as (i & <- & _). apply schemaError_tag.
Qed.

(** C3 does not hold of the code.  A document in which a team's field list is
    an array of a length other than 4 never reaches the formation check of
    the validator: the schema refuses it and [validateScript] returns at once,
    so the verdict is invalid, every error listed is tagged [[schema]] and
    there is no [[formation]] error, where the claim wants exactly one.  The
    check is dead code: no document whatever gets a [[formation]] error. *)
Theorem short_field_gets_no_formation_error (side : string) (raw : Raw)
    (items : list Raw) :
  side = "home" \/ side = "away" ->
  fieldOf side raw = Some items -> length items <> 4%nat ->
  valid (validateScript raw) = false
  /\ errors (validateScript raw) <> []
  /\ Forall (fun e => String.prefix "[schema]" e = true) (errors (validateScript raw))
  /\ List.filter (String.prefix "[formation]") (errors (validateScript raw)) = []
  /\ forall doc,
       List.filter (String.prefix "[formation]") (errors (validateScript doc)) = [].
Proof.
  intros Hside Hf Hlen.
  split; [|split; [|split; [|split; [apply formation_check_never_fires
                                     | apply formation_check_never_fires]]]].
  all: pose proof (safeParse_short_field side raw items Hside Hf Hlen) as Hfail.
  all: unfold validateScript;
    destruct (safeParse raw) as [script|issues] eqn:Hp; [done|].
  - done.
  - simpl. apply safeParse_failure_nonempty in Hp. by destruct issues.
  - simpl. apply Forall_forall. intros e He.
    apply list_elem_of_In, in_map_iff in He.
    destruct He as (i & <- & _). apply schemaError_tag.
Qed.

Lemma short_field_gets_no_formation_error_witness :
  let doc := rawScript (sampleScript (athens "Socrates" (take 3 athensField)) [kickoff]) in
  fieldOf "home" doc = Some (map rawPlayer (take 3 athensField))
  /\ valid (validateScript doc) = false
  /\ List.filter (String.prefix "[formation]") (errors (validateScript doc)) = [].
Proof.
  intros doc. split; [reflexivity|].
  destruct (short_field_gets_no_formation_error "home" doc
              (map rawPlayer (take 3 athensField)))
    as (Hv & _ & _ & Hnone & _); [by left | reflexivity | simpl; lia |].
  split; [exact Hv | exact Hnone].
Defined.

(** X10.  On a document the schema accepts, the validator lists no
    [[identity]] error exactly when the thirteen participant names (ten
    players and three officials) are pairwise distinct; in general it lists
    one [[identity]] error per name beyond the distinct ones: their number
    plus the number of distinct names is thirteen. *)
Theorem identity_errors_count_repeated_names (raw : Raw) (script : MatchScript) :
  safeParse raw = Success script ->
  (identityErrors (errors (validateScript raw)) = []
   <-> NoDup (participantNames (match_ script)))
  /\ (length (identityErrors (errors (validateScript raw)))
      + size (list_to_set (participantNames (match_ script)) : gset string)
      = 13)%nat.
Proof.
  intros Hp. unfold validateScript. rewrite Hp.
  destruct (identityErrors_semanticChecks script) as (acc & Ht & ->).
  destruct (safeParse_in_range raw script Hp) as (_ & _ & _ & Hteams).
  pose proof (Hteams (home (match_ script)) (or_introl eq_refl)) as Hh.
  pose proof (Hteams (away (match_ script)) (or_intror eq_refl)) as Ha.
  destruct Ht as (Hset & Hlen & Hnd & _). split; [done|].
  rewrite Hset in Hlen. rewrite Hlen. unfold participantNames.
  rewrite !length_app. simpl. rewrite !length_fmap, Hh, Ha. done.
Qed.

Lemma identity_errors_count_repeated_names_witness :
  let script := sampleScript (athens "Kant" athensField) [kickoff] in
  length (identityErrors (errors (validateScript (rawScript script)))) = 1%nat.
Proof.
  intros script.
  destruct (identity_errors_count_repeated_names (rawScript script) script)
    as [_ H]; [vm_compute; reflexivity|].
  assert (Hs : size (list_to_set (participantNames (match_ script)) : gset string)
               = 12%nat) by (vm_compute; reflexivity).
  rewrite Hs in H. lia.
Defined.

(** ** The verdict, condition by condition *)

Lemma knownNamesOf_spec (m : MatchMeta) (n : string) :
  n ∈ knownNamesOf m <-> knownName m n.
Proof.
  unfold knownNamesOf, knownName.
  rewrite !elem_of_union, elem_of_list_to_set, !elem_of_singleton. tauto.
Qed.

Lemma unknownBody_nil (m : MatchMeta) (o : option string) (what : string) :
  unknownBody (knownNamesOf m) o what = []
  <-> (forall n, n <> "" -> o = Some n -> knownName m n).
Proof.
  unfold unknownBody. destruct o as [n|]; [|split; [by intros |done]].
  destruct (nonempty n) eqn:Hne; simpl.
  - destruct (bool_decide_reflect (n ∈ knownNamesOf m)) as [Hin|Hin]; simpl.
    + split; [|done]. intros _ n' _ [= <-]. by apply knownNamesOf_spec.
    + split; [done|]. intros H. destruct Hin. apply knownNamesOf_spec.
      apply (H n); [by apply nonempty_true | done].
  - split; [|done]. intros _ n' Hn' [= <-]. apply nonempty_true in Hn'. congruence.
Qed.

Lemma eventBodies_nil (m : MatchMeta) (ev : MatchEvent) :
  eventBodies (knownNamesOf m) ev = [] <-> eventAccepted m ev.
Proof.
  unfold eventBodies, eventAccepted.
  rewrite !app_nil, !unknownBody_nil. split.
  - intros (Ha & Hf & Ht & Hs & Han & Hp). split; [|split].
    + intros n Hn [H | [H | H]]; eauto.
    + intros [Hty | Hty]; rewrite Hty in *; simpl in *;
        by destruct (truthy (text ev)).
    + intros Hty. unfold passBodies in Hp. rewrite Hty in Hp. simpl in Hp.
      apply app_nil in Hp as [H1 H2].
      by destruct (truthy (from ev)), (truthy (to ev)).
  - intros (Hn & Htext & Hpass).
    split; [intros n ? ?; apply (Hn n); auto|].
    split; [intros n ? ?; apply (Hn n); auto|].
    split; [intros n ? ?; apply (Hn n); auto|].
    split; [|split].
    + destruct (bool_decide_reflect (type ev = speak)) as [Hty|]; [|done].
      simpl. by rewrite Htext by auto.
    + destruct (bool_decide_reflect (type ev = announce)) as [Hty|]; [|done].
      simpl. by rewrite Htext by auto.
    + unfold passBodies.
      destruct (bool_decide_reflect (type ev = pass)) as [Hty|]; [|done].
      destruct (Hpass Hty) as [-> ->]. done.
Qed.

Lemma eventLoop_nil (m : MatchMeta) (i : nat) (evs : list MatchEvent) :
  eventLoop (knownNamesOf m) i evs = [] <-> Forall (eventAccepted m) evs.
Proof.
  revert i. induction evs as [|ev rest IH]; intros i; simpl.
  - split; [constructor | done].
  - rewrite app_nil, IH, Forall_cons, eventErrors_bodies, <- eventBodies_nil.
    split; intros [H1 H2]; (split; [|done]).
    + by apply map_eq_nil in H1.
    + by rewrite H1.
Qed.

Lemma formationErrors_nil (t : Team) :
  formationErrors t = [] <-> length (field t) = 4%nat.
Proof.
  unfold formationErrors.
  destruct (bool_decide_reflect (length (field t) ≠ 4%nat)) as [H|H]; split;
    try done; intros _.
  destruct (decide (length (field t) = 4%nat)); done.
Qed.

Lemma semanticChecks_valid (script : MatchScript) :
  valid (semanticChecks script) = true
  <-> NoDup (participantNames (match_ script))
      /\ length (field (home (match_ script))) = 4%nat
      /\ length (field (away (match_ script))) = 4%nat
      /\ events script <> []
      /\ Forall (eventAccepted (match_ script)) (events script).
Proof.
  destruct (semanticChecks_parts script) as (acc & Ht & He & Hv).
  rewrite Hv, Nat.eqb_eq, length_zero_iff_nil, He, !app_nil.
  destruct Ht as (_ & _ & Hnd & _).
  rewrite Hnd, !formationErrors_nil, eventLoop_nil.
  assert (Hev : (if (length (events script) =? 0)%nat
                 then ["[events] Match has no events"] else []) = []
                <-> events script <> []).
  { destruct (events script); simpl; split; done. }
  rewrite Hev. tauto.
Qed.

(** X11.  The verdict of the validator, spelled out: a document is valid
    exactly when the schema accepts it, its thirteen participant names are
    pairwise distinct, it has at least one event, and every event names (in
    [actor], [from], [to], when non-empty) only participants or the aliases
    [referee], [pbp], [color], carries a non-empty text when it is a [speak]
    or an [announce], and non-empty [from] and [to] when it is a [pass]. *)
Theorem valid_means_well_formed (raw : Raw) :
  valid (validateScript raw) = true
  <-> exists script,
        safeParse raw = Success script
        /\ NoDup (participantNames (match_ script))
        /\ events script <> []
        /\ Forall (eventAccepted (match_ script)) (events script).
Proof.
  unfold validateScript. destruct (safeParse raw) as [script|issues] eqn:Hp.
  - rewrite semanticChecks_valid.
    destruct (safeParse_in_range raw script Hp) as (_ & _ & _ & Hteams).
    pose proof (Hteams (home (match_ script)) (or_introl eq_refl)) as Hh.
    pose proof (Hteams (away (match_ script)) (or_intror eq_refl)) as Ha.
    split.
    + intros (Hnd & _ & _ & Hne & Hevs). by exists script.
    + intros (s & [= <-] & Hnd & Hne & Hevs). done.
  - simpl. split; [done|]. by intros (s & Hs & _).
Qed.

(** ** The warnings *)

Lemma semanticChecks_warnings (script : MatchScript) :
  warnings (semanticChecks script)
  = ((match events script with
      | [] => []
      | first :: rest => minuteWarnings 1 first rest
      end
      ++ match events script with
         | first :: _ =>
             if bool_decide (type first ≠ whistle)
             then ["[sequence] Match does not begin with a whistle"] else []
         | [] => []
         end)
     ++ match last (events script) with
        | Some l =>
            if bool_decide (type l ≠ fulltime_marker)
            then ["[sequence] Match does not end with fulltime"] else []
        | None => []
        end)%list.
Proof.
  unfold semanticChecks.
  match goal with |- context [let '(_, _) := ?p in _] => destruct p end.
  reflexivity.
Qed.

Lemma minuteWarnings_nil (i : nat) (prev : MatchEvent) (rest : list MatchEvent) :
  minuteWarnings i prev rest = [] <-> minutesNeverDecrease (minute prev) rest.
Proof.
  revert i prev. induction rest as [|ev rest IH]; intros i prev; simpl; [done|].
  rewrite app_nil, IH. destruct (Z.ltb_spec (minute ev) (minute prev)); split;
    intros [H1 H2]; try done; try lia; (split; [lia | done]).
Qed.

(** X12.  On a document the schema accepts, the validator raises no warning
    exactly when the minutes of the events never decrease, the first event is
    a whistle and the last one a full-time marker (a document without events
    gets no warning). *)
Theorem no_warning_means_ordered_and_bookended (raw : Raw) (script : MatchScript) :
  safeParse raw = Success script ->
  (warnings (validateScript raw) = []
   <-> match events script with
       | [] => True
       | first :: rest =>
           minutesNeverDecrease (minute first) rest
           /\ type first = whistle
           /\ (forall l, last (events script) = Some l -> type l = fulltime_marker)
       end).
Proof.
  intros Hp. unfold validateScript. rewrite Hp, semanticChecks_warnings.
  destruct (events script) as [|first rest] eqn:Hev; [done|].
  rewrite !app_nil, minuteWarnings_nil.
  assert (HA : (if bool_decide (type first ≠ whistle)
                then ["[sequence] Match does not begin with a whistle"] else []) = []
               <-> type first = whistle).
  { destruct (bool_decide_reflect (type first ≠ whistle)) as [H|H]; split; try done.
    intros _. by destruct (decide (type first = whistle)). }
  assert (HB : match last (first :: rest) with
               | Some l =>
                   if bool_decide (type l ≠ fulltime_marker)
                   then ["[sequence] Match does not end with fulltime"] else []
               | None => []
               end = []
               <-> (forall l, last (first :: rest) = Some l -> type l = fulltime_marker)).
  { destruct (last (first :: rest)) as [l|]; [|by split].
    destruct (bool_decide_reflect (type l ≠ fulltime_marker)) as [H|H]; split.
    - done.
    - intros Hl. by specialize (Hl l eq_refl).
    - intros _ l' [= <-]. by destruct (decide (type l = fulltime_marker)).
    - done. }
  rewrite HA, HB. tauto.
Qed.

Lemma no_warning_means_ordered_and_bookended_witness :
  warnings (validateScript (rawScript goalThenKickoff)) = [].
Proof.
  apply (no_warning_means_ordered_and_bookended (rawScript goalThenKickoff)
           goalThenKickoff); [vm_compute; reflexivity|].
  simpl. repeat split; try lia. by intros l [= <-].
Defined.

(** ** The loader *)

Lemma valid_parses (raw : Raw) :
  valid (validateScript raw) = true -> exists script, safeParse raw = Success script.
Proof.
  unfold validateScript. destruct (safeParse raw) as [script|issues]; [eauto|done].
Qed.

(** X13.  [loadMatchScript] never fails in its second parse: it either
    throws the validation error, whose message carries the number of errors
    (at least one), or returns the script the schema produced, and it returns
    a script exactly when the validator's verdict is valid. *)
Theorem loader_returns_exactly_valid_scripts (raw : Raw) :
  (forall issues, loadMatchScript raw <> ZodError issues)
  /\ (forall script,
        loadMatchScript raw = Loaded script
        <-> valid (validateScript raw) = true /\ safeParse raw = Success script)
  /\ (valid (validateScript raw) = false ->
      errors (validateScript raw) <> []
      /\ loadMatchScript raw
         = ValidationFailed
             ("Match script validation failed ("
              +:+ show_nat (length (errors (validateScript raw))) +:+ " errors)")).
Proof.
  unfold loadMatchScript.
  destruct (valid (validateScript raw)) eqn:Hv; simpl.
  - destruct (valid_parses raw Hv) as [script Hs]. rewrite Hs.
    split; [done|]. split; [|done].
    intros s. split; [by intros [= <-] | by intros [_ [= <-]]].
  - split; [done|]. split; [by split; [|intros [? _]]|].
    intros _. split; [|done]. intros He.
    apply validateScript_verdict in He. congruence.
Qed.

(** X14.  A script that [loadMatchScript] returns is fit for the engine: its
    thirteen participant names are pairwise distinct, each team has four field
    players, there is at least one event, every event refers only to
    participants or aliases and carries the fields its kind requires, and
    every number of every event is in the range the schema declares. *)
Theorem loaded_script_is_well_formed (raw : Raw) (script : MatchScript) :
  loadMatchScript raw = Loaded script ->
  NoDup (participantNames (match_ script))
  /\ length (field (home (match_ script))) = 4%nat
  /\ length (field (away (match_ script))) = 4%nat
  /\ events script <> []
  /\ Forall (eventAccepted (match_ script)) (events script)
  /\ Forall eventInRange (events script).
Proof.
  unfold loadMatchScript.
  destruct (valid (validateScript raw)) eqn:Hv; [|done]. simpl.
  destruct (safeParse raw) as [s|] eqn:Hp; [|done]. intros [= ->].
  unfold validateScript in Hv. rewrite Hp in Hv.
  apply semanticChecks_valid in Hv as (Hnd & Hh & Ha & Hne & Hevs).
  destruct (safeParse_in_range raw script Hp) as (Hr & _). done.
Qed.

Lemma loaded_script_is_well_formed_witness :
  NoDup (participantNames (match_ goalThenKickoff))
  /\ Forall (eventAccepted (match_ goalThenKickoff)) (events goalThenKickoff).
Proof.
  destruct (loaded_script_is_well_formed (rawScript goalThenKickoff) goalThenKickoff)
    as (Hnd & _ & _ & _ & Hev & _); [vm_compute; reflexivity|].
  split; [exact Hnd | exact Hev].
Defined.

(** * Further properties: voices, zones, escaping *)

(** ** Voices *)

Lemma setFieldPlayers_adds (t : Side) (slots : list PitchPosition) (fld : list Player)
    (i : nat) (m : gmap string PlayerState) (k : string) :
  k ∈ (name <$> fld) -> is_Some (setFieldPlayers t slots i fld m !! k).
Proof.
  revert i m. induction fld as [|p rest IH]; intros i m; [by intros ?%elem_of_nil|].
  rewrite fmap_cons, elem_of_cons. intros [-> | Hk]; simpl.
  - apply setFieldPlayers_keeps. rewrite lookup_insert_eq. eauto.
  - by apply IH.
Qed.

Lemma initializeState_has_players (script : MatchScript) (k : string) :
  k ∈ playerNames (match_ script) ->
  is_Some (players (initializeState script) !! k).
Proof.
  unfold playerNames. rewrite elem_of_app, !elem_of_cons. simpl.
  intros [[-> | Hk] | [-> | Hk]].
  - apply initializeState_home_tender.
  - apply setFieldPlayers_keeps, insert_keeps. by apply setFieldPlayers_adds.
  - apply setFieldPlayers_keeps. rewrite lookup_insert_eq. eauto.
  - by apply setFieldPlayers_adds.
Qed.

Lemma reachable_has_players (script : MatchScript) (st : MatchState) (k : string) :
  reachable script st -> k ∈ playerNames (match_ script) ->
  is_Some (players st !! k).
Proof.
  intros Hr Hk. induction Hr as [|i ev st Hr IH].
  - by apply initializeState_has_players.
  - unfold step. by apply applyEvent_keeps.
Qed.

Lemma participant_or_official (m : MatchMeta) (n : string) :
  n ∈ participantNames m ->
  n ∈ playerNames m
  \/ n = official_name (referee (officials m))
  \/ n = official_name (pbp (officials m))
  \/ n = official_name (color (officials m)).
Proof.
  unfold participantNames, playerNames.
  rewrite !elem_of_app, !elem_of_cons, elem_of_nil. tauto.
Qed.

(** X15.  For a script the loader returned, every non-empty actor of every
    event has a voice in every state the engine reaches: [resolveVoice] never
    answers null for it. *)
Theorem every_actor_has_a_voice (raw : Raw) (script : MatchScript) (st : MatchState)
    (ev : MatchEvent) (a : string) :
  loadMatchScript raw = Loaded script -> reachable script st ->
  ev ∈ events script -> actor ev = Some a -> a <> "" ->
  exists v, resolveVoice a st = Some v.
Proof.
  intros Hl Hr Hev Ha Hne.
  assert (Hacc : Forall (eventAccepted (match_ script)) (events script)).
  { revert Hl. unfold loadMatchScript.
    destruct (valid (validateScript raw)) eqn:Hv; [|done]. simpl.
    destruct (safeParse raw) as [s|] eqn:Hp; [|done]. intros [= ->].
    unfold validateScript in Hv. rewrite Hp in Hv.
    by apply semanticChecks_valid in Hv as (_ & _ & _ & _ & Hevs). }
  rewrite Forall_forall in Hacc. destruct (Hacc ev Hev) as (Hknown & _).
  specialize (Hknown a Hne (or_introl Ha)).
  destruct (reachable_home_tender_known script st Hr) as [Hmeta _].
  unfold resolveVoice. destruct (players st !! a) as [ps|] eqn:Hps; [eauto|].
  rewrite Hmeta.
  destruct Hknown as [Hin | [-> | [-> | ->]]].
  - apply participant_or_official in Hin as [Hin | [-> | [-> | ->]]].
    + apply (reachable_has_players script st a Hr) in Hin.
      rewrite Hps in Hin. by destruct Hin.
    + rewrite String.eqb_refl. simpl. eauto.
    + rewrite String.eqb_refl. simpl. repeat case_match; eauto.
    + rewrite String.eqb_refl. simpl. repeat case_match; eauto.
  - rewrite orb_true_r. eauto.
  - rewrite (orb_true_r (String.eqb "pbp" _)). repeat case_match; eauto.
  - rewrite (orb_true_r (String.eqb "color" _)). repeat case_match; eauto.
Qed.

Lemma every_actor_has_a_voice_witness :
  exists v, resolveVoice "Epicurus" (run goalThenKickoff) = Some v.
Proof.
  apply (every_actor_has_a_voice (rawScript goalThenKickoff) goalThenKickoff
           (run goalThenKickoff) (goalBy 20 "Epicurus") "Epicurus").
  - vm_compute. reflexivity.
  - apply run_reachable.
  - simpl. rewrite !elem_of_cons. right; right; left. reflexivity.
  - reflexivity.
  - discriminate.
Defined.

(** ** Zones *)

(** X16.  Being near a goal is symmetric under the reflection of the pitch
    that swaps the two sides, and a position near a goal is always described
    as deep in a half: in the home ("own") half near the home goal, in the
    opponent's half near the away goal. *)
Theorem near_goal_is_mirrored_and_deep (pos : PitchPosition) (t : Side) :
  isNearGoal (mirror pos) (otherSide t) = isNearGoal pos t
  /\ (isNearGoal pos t = true ->
      describeZone pos
      = match t with
        | side_home => "deep in own half"
        | side_away => "deep in opponent's half"
        end).
Proof.
  split.
  - unfold isNearGoal, mirror. destruct t; simpl; f_equal.
    + replace (- x pos - 48) with (- (x pos - -48)) by lia. by rewrite Z.abs_opp.
    + replace (- x pos - -48) with (- (x pos - 48)) by lia. by rewrite Z.abs_opp.
  - unfold isNearGoal, describeZone. rewrite andb_true_iff, !Z.ltb_lt.
    intros [Hx _]. apply Z.abs_lt in Hx. destruct t.
    + destruct (Z.ltb_spec (x pos) (-35)); [done | exfalso; lia].
    + destruct (Z.ltb_spec (x pos) (-35)); [exfalso; lia|].
      destruct (Z.ltb_spec (x pos) (-17)); [exfalso; lia|].
      destruct (Z.ltb_spec (x pos) 0); [exfalso; lia|].
      destruct (Z.ltb_spec (x pos) 17); [exfalso; lia|].
      destruct (Z.ltb_spec (x pos) 35); [exfalso; lia|].
      destruct (Z.eqb_spec (x pos) 0); [exfalso; lia | done].
Qed.

(** X17.  The default formation of one side is the mirror image of the
    other's; each side's tender starts near its own goal, and all five spots
    lie on the pitch, strictly inside the side's own half (negative x for
    home, positive x for away). *)
Theorem default_formation_is_mirrored (t : Side) :
  defaultPositions (otherSide t) = mirrorFormation (defaultPositions t)
  /\ isNearGoal (f_tender (defaultPositions t)) t = true
  /\ Forall (fun pos => onPitchArea pos
                        /\ match t with
                           | side_home => x pos < 0
                           | side_away => 0 < x pos
                           end)
       (formationSpots (defaultPositions t)).
Proof.
  destruct t; (split; [reflexivity|]); (split; [reflexivity|]);
    repeat constructor; simpl; lia.
Qed.

(** ** XML escaping *)

Lemma replaceAll_app (c : ascii) (rep a b : string) :
  replaceAll c rep (a +:+ b) = replaceAll c rep a +:+ replaceAll c rep b.
Proof.
  induction a as [|ch a IH]; [done|].
  rewrite append_String. simpl. rewrite IH.
  destruct (Ascii.eqb ch c); [by rewrite append_assoc | done].
Qed.

Lemma escapeXml_app (a b : string) :
  escapeXml (a +:+ b) = escapeXml a +:+ escapeXml b.
Proof. unfold escapeXml. by rewrite !replaceAll_app. Qed.

Lemma escapeXml_one (ch : ascii) :
  escapeXml (String ch EmptyString) = escapeChar ch.
Proof.
  unfold escapeXml, escapeChar. simpl.
  destruct (Ascii.eqb_spec ch "&") as [->|H1]; [reflexivity|].
  simpl. destruct (Ascii.eqb_spec ch "<") as [->|H2]; [reflexivity|].
  simpl. destruct (Ascii.eqb_spec ch ">") as [->|H3]; [reflexivity|].
  simpl. destruct (Ascii.eqb_spec ch (ascii_of_nat 34)) as [->|H4]; [reflexivity|].
  simpl. destruct (Ascii.eqb_spec ch "'") as [->|H5]; reflexivity.
Qed.

Lemma escapeXml_cons (ch : ascii) (s : string) :
  escapeXml (String ch s) = escapeChar ch +:+ escapeXml s.
Proof.
  change (String ch s) with (String ch EmptyString +:+ s).
  by rewrite escapeXml_app, escapeXml_one.
Qed.

Lemma occurs_app (c : ascii) (a b : string) :
  occurs c (a +:+ b) = occurs c a || occurs c b.
Proof.
  induction a as [|ch a IH]; [done|].
  rewrite append_String. simpl. by rewrite IH, orb_assoc.
Qed.

Lemma escapeChar_clean (ch : ascii) :
  occurs "<" (escapeChar ch) = false /\ occurs ">" (escapeChar ch) = false
  /\ occurs (ascii_of_nat 34) (escapeChar ch) = false
  /\ occurs "'" (escapeChar ch) = false.
Proof.
  unfold escapeChar.
  destruct (Ascii.eqb_spec ch "&"); [done|].
  destruct (Ascii.eqb_spec ch "<"); [done|].
  destruct (Ascii.eqb_spec ch ">"); [done|].
  destruct (Ascii.eqb_spec ch (ascii_of_nat 34)); [done|].
  destruct (Ascii.eqb_spec ch "'"); [done|].
  simpl. rewrite !orb_false_r.
  repeat split; by apply Ascii.eqb_neq.
Qed.

(** X18.  [escapeXml] works character by character (the escape of a
    concatenation is the concatenation of the escapes, although it is written
    as five successive replacements), and its result contains none of the
    characters <, >, double quote and apostrophe. *)
Theorem escapeXml_leaves_no_markup (a b : string) :
  escapeXml (a +:+ b) = escapeXml a +:+ escapeXml b
  /\ occurs "<" (escapeXml a) = false /\ occurs ">" (escapeXml a) = false
  /\ occurs (ascii_of_nat 34) (escapeXml a) = false
  /\ occurs "'" (escapeXml a) = false.
Proof.
  split; [apply escapeXml_app|].
  induction a as [|ch a (IH1 & IH2 & IH3 & IH4)]; [done|].
  rewrite escapeXml_cons, !occurs_app, IH1, IH2, IH3, IH4.
  destruct (escapeChar_clean ch) as (-> & -> & -> & ->). done.
Qed.

Lemma escapeChar_cases (ch : ascii) :
  (ch = "&"%char /\ escapeChar ch = "&amp;")
  \/ (ch = "<"%char /\ escapeChar ch = "&lt;")
  \/ (ch = ">"%char /\ escapeChar ch = "&gt;")
  \/ (ch = ascii_of_nat 34 /\ escapeChar ch = "&quot;")
  \/ (ch = "'"%char /\ escapeChar ch = "&apos;")
  \/ (ch <> "&"%char /\ escapeChar ch = String ch EmptyString).
Proof.
  unfold escapeChar.
  destruct (Ascii.eqb_spec ch "&"); [auto|].
  destruct (Ascii.eqb_spec ch "<"); [auto|].
  destruct (Ascii.eqb_spec ch ">"); [auto 6|].
  destruct (Ascii.eqb_spec ch (ascii_of_nat 34)); [auto 6|].
  destruct (Ascii.eqb_spec ch "'"); [auto 7|]. auto 8.
Qed.

Lemma escapeXml_starts (ch : ascii) (s : string) :
  exists c rest, escapeXml (String ch s) = String c rest.
Proof.
  rewrite escapeXml_cons.
  destruct (escapeChar_cases ch) as [[_ ->]|[[_ ->]|[[_ ->]|[[_ ->]|[[_ ->]|[_ ->]]]]]];
    rewrite append_String; eauto.
Qed.

(** X19.  [escapeXml] loses nothing: two texts with the same escape are the
    same text. *)
Theorem escapeXml_is_injective (a b : string) :
  escapeXml a = escapeXml b -> a = b.
Proof.
  revert b. induction a as [|ch a IH]; intros b.
  - destruct b as [|ch' b]; [done|].
    destruct (escapeXml_starts ch' b) as (c & rest & ->). done.
  - destruct b as [|ch' b].
    { destruct (escapeXml_starts ch a) as (c & rest & ->). done. }
    rewrite !escapeXml_cons.
    destruct (escapeChar_cases ch) as [[-> ->]|[[-> ->]|[[-> ->]|[[-> ->]|[[-> ->]|[H ->]]]]]];
      destruct (escapeChar_cases ch') as [[-> ->]|[[-> ->]|[[-> ->]|[[-> ->]|[[-> ->]|[H' ->]]]]]];
      rewrite ?append_String, ?append_Empty; intros E;
      try discriminate E;
      try (injection E as E; try congruence;
           repeat (injection E as E); f_equal; try done; by apply IH).
Qed.

Lemma escapeXml_is_injective_witness : "a" +:+ "<b&" = "a<" +:+ "b&".
Proof.
  apply (escapeXml_is_injective ("a" +:+ "<b&") ("a<" +:+ "b&")).
  vm_compute. reflexivity.
Defined.

(** ** The match identifier *)

Lemma append_Empty_r (s : string) : s +:+ "" = s.
Proof. induction s as [|c s IH]; [done|]. rewrite append_String. by f_equal. Qed.

Lemma dropDigits_split (s : string) :
  exists d, s = d +:+ dropDigits s /\ allDigits d = true.
Proof.
  induction s as [|c s (d & Hs & Hd)]; [by exists EmptyString|].
  simpl. destruct (is_digit c) eqn:Hc.
  - exists (String c d). rewrite append_String, <- Hs. simpl. by rewrite Hc, Hd.
  - by exists EmptyString.
Qed.

Lemma dropDigits_app (d : string) (c : ascii) (rest : string) :
  allDigits d = true -> is_digit c = false ->
  dropDigits (d +:+ String c rest) = String c rest.
Proof.
  intros Hd Hc. induction d as [|a d IH].
  - rewrite append_Empty. simpl. by rewrite Hc.
  - simpl in Hd. apply andb_true_iff in Hd as [Ha Hd].
    rewrite append_String. simpl. rewrite Ha. by apply IH.
Qed.

Lemma dropDigits_all (d : string) : allDigits d = true -> dropDigits d = EmptyString.
Proof.
  induction d as [|a d IH]; [done|]. simpl.
  intros [Ha Hd]%andb_true_iff. rewrite Ha. by apply IH.
Qed.

Lemma matches_id_first (c : ascii) (r : string) :
  matches_id (String c r) = true -> c = "S"%char.
Proof. destruct c as [[] [] [] [] [] [] [] []]; simpl; done. Qed.

Lemma matches_id_second (m e : ascii) (r : string) :
  match String m (String e r) with
  | String "M" (String e' rest') =>
      is_digit e' && bool_decide (dropDigits rest' = EmptyString)
  | _ => false
  end = true ->
  m = "M"%char.
Proof. destruct m as [[] [] [] [] [] [] [] []]; simpl; done. Qed.

(** X20.  The identifier check accepts exactly the strings made of an [S],
    one or more decimal digits, an [M] and one or more decimal digits. *)
Theorem matches_id_iff (s : string) :
  matches_id s = true
  <-> exists d1 d2,
        s = "S" +:+ d1 +:+ "M" +:+ d2
        /\ d1 <> "" /\ d2 <> ""
        /\ allDigits d1 = true /\ allDigits d2 = true.
Proof.
  split.
  - destruct s as [|c [|d rest]]; try done.
    { by destruct c as [[] [] [] [] [] [] [] []]. }
    intros H. pose proof (matches_id_first _ _ H) as ->. simpl in H.
    apply andb_true_iff in H as [Hd H].
    destruct (dropDigits_split rest) as (dA & Hrest & HdA).
    destruct (dropDigits rest) as [|m [|e rest']] eqn:Hdrop; try done.
    { by destruct m as [[] [] [] [] [] [] [] []]. }
    pose proof (matches_id_second _ _ _ H) as ->. simpl in H.
    apply andb_true_iff in H as [He H]. apply bool_decide_eq_true_1 in H.
    destruct (dropDigits_split rest') as (dB & Hrest' & HdB).
    rewrite H in Hrest'.
    exists (String d dA), (String e dB). split; [|split; [done|split; [done|]]].
    + rewrite append_Empty_r in Hrest'. subst rest'. rewrite Hrest. reflexivity.
    + simpl. by rewrite Hd, HdA, He, HdB.
  - intros (d1 & d2 & -> & H1 & H2 & Hd1 & Hd2).
    destruct d1 as [|d dA]; [done|]. destruct d2 as [|e dB]; [done|].
    simpl in Hd1, Hd2.
    apply andb_true_iff in Hd1 as [Hd HdA]. apply andb_true_iff in Hd2 as [He HdB].
    rewrite !append_String, !append_Empty. simpl. rewrite Hd. simpl.
    rewrite dropDigits_app by done. rewrite He. simpl.
    apply bool_decide_eq_true_2. by apply dropDigits_all.
Qed.

(** * The fate of a player over a replay *)

Lemma sameButBall_afterEvent (k : string) (ev : MatchEvent) (ps ps' : PlayerState) :
  cardsShown k ev = [] -> sendsOff k ev = false -> movesTo k ev = None ->
  sameButBall ps ps' -> afterEvent k ev ps ps'.
Proof.
  intros Hc Hs Hm (H1 & H2 & H3 & H4 & H5). unfold afterEvent.
  rewrite Hc, Hs, Hm, app_nil_r, andb_true_r. done.
Qed.

Lemma sameButBall_refl (ps : PlayerState) : sameButBall ps ps.
Proof. by repeat split. Qed.

Lemma giveBall_sameButBall (n : string) (st : MatchState) (k : string) :
  option_Forall2 sameButBall (players st !! k) (players (giveBall n st) !! k).
Proof.
  apply giveBall_evolves; unfold sameButBall.
  - by repeat split.
  - intros a b c (? & ? & ? & ? & ?) (? & ? & ? & ? & ?). repeat split; congruence.
  - by repeat split.
Qed.

Lemma names_eq (ev : MatchEvent) (a k : string) :
  actor ev = Some a -> nonempty a = true -> names ev k = bool_decide (a = k).
Proof.
  intros Ha Hne. unfold names. rewrite Ha, Hne. simpl.
  destruct (String.eqb_spec a k);
    [by rewrite bool_decide_eq_true_2 | by rewrite bool_decide_eq_false_2].
Qed.

Lemma names_absent (ev : MatchEvent) (k : string) :
  truthy (actor ev) = false -> names ev k = false.
Proof.
  unfold names, truthy. destruct (actor ev) as [a|]; [|done]. by intros ->.
Qed.

Lemma applyEvent_afterEvent (ev : MatchEvent) (st : MatchState) (k : string) :
  option_Forall2 (afterEvent k ev) (players st !! k) (players (applyEvent ev st) !! k).
Proof.
  assert (Hsame : forall st',
             option_Forall2 sameButBall (players st !! k) (players st' !! k) ->
             cardsShown k ev = [] -> sendsOff k ev = false -> movesTo k ev = None ->
             option_Forall2 (afterEvent k ev) (players st !! k) (players st' !! k)).
  { intros st' H Hc Hs Hm. destruct H; constructor.
    by apply sameButBall_afterEvent. }
  assert (Hrefl : option_Forall2 sameButBall (players st !! k) (players st !! k)).
  { destruct (players st !! k); constructor. apply sameButBall_refl. }
  unfold applyEvent.
  destruct (type ev) eqn:Hty;
    try (apply Hsame; unfold cardsShown, sendsOff, movesTo; rewrite ?Hty; try done;
         repeat (case_match; simpl; try done);
         try apply (giveBall_sameButBall _ (with_ball _ st));
         try apply giveBall_sameButBall; fail).
  - (* move *)
    destruct (actor ev) as [a|] eqn:Ha;
      [|apply Hsame; unfold cardsShown, sendsOff, movesTo, names;
        rewrite ?Hty, ?Ha; try done; by repeat case_match].
    destruct (position ev) as [pos|] eqn:Hp;
      [|apply Hsame; unfold cardsShown, sendsOff, movesTo;
        rewrite ?Hty, ?Hp; done].
    destruct (nonempty a) eqn:Hne;
      [|apply Hsame; unfold cardsShown, sendsOff, movesTo, names;
        rewrite ?Hty, ?Ha, ?Hp, ?Hne; done].
    destruct (players st !! a) as [ps|] eqn:Hps.
    + simpl. destruct (decide (a = k)) as [->|Hak].
      * rewrite lookup_insert_eq, Hps. constructor.
        unfold afterEvent, cardsShown, sendsOff, movesTo.
        rewrite Hty, Hp, (names_eq ev k k Ha Hne), bool_decide_eq_true_2 by done.
        simpl. by rewrite app_nil_r, andb_true_r.
      * rewrite lookup_insert_ne by done.
        apply Hsame; [done|unfold cardsShown; by rewrite Hty|
                      unfold sendsOff; by rewrite Hty|].
        unfold movesTo. rewrite Hty, Hp, (names_eq ev a k Ha Hne).
        by rewrite bool_decide_eq_false_2.
    + destruct (decide (a = k)) as [->|Hak].
      * rewrite Hps. constructor.
      * apply Hsame; [done|unfold cardsShown; by rewrite Hty|
                      unfold sendsOff; by rewrite Hty|].
        unfold movesTo. rewrite Hty, Hp, (names_eq ev a k Ha Hne).
        by rewrite bool_decide_eq_false_2.
  - (* exit *)
    destruct (actor ev) as [a|] eqn:Ha;
      [|apply Hsame; unfold cardsShown, sendsOff, movesTo, names;
        rewrite ?Hty, ?Ha; done].
    destruct (nonempty a) eqn:Hne;
      [|apply Hsame; unfold cardsShown, sendsOff, movesTo, names;
        rewrite ?Hty, ?Ha, ?Hne; done].
    destruct (players st !! a) as [ps|] eqn:Hps.
    + destruct (decide (a = k)) as [->|Hak].
      * assert (Hk : afterEvent k ev ps (set_onPitch false ps)
                     /\ afterEvent k ev ps (set_hasBall false (set_onPitch false ps))).
        { unfold afterEvent, cardsShown, sendsOff, movesTo.
          rewrite Hty, (names_eq ev k k Ha Hne), bool_decide_eq_true_2 by done.
          simpl. by rewrite app_nil_r, andb_false_r. }
        destruct Hk as [Hk1 Hk2]. simpl.
        destruct (hasBall ps); simpl; rewrite lookup_insert_eq, Hps; by constructor.
      * assert (Hother : sendsOff k ev = false).
        { unfold sendsOff. rewrite Hty, (names_eq ev a k Ha Hne).
          by rewrite bool_decide_eq_false_2. }
        simpl. destruct (hasBall ps); simpl; rewrite lookup_insert_ne by done;
          (apply Hsame; [done|unfold cardsShown; by rewrite Hty|done|
                         unfold movesTo; by rewrite Hty]).
    + destruct (decide (a = k)) as [->|Hak].
      * rewrite Hps. constructor.
      * apply Hsame; [done|unfold cardsShown; by rewrite Hty| |
                      unfold movesTo; by rewrite Hty].
        unfold sendsOff. rewrite Hty, (names_eq ev a k Ha Hne).
        by rewrite bool_decide_eq_false_2.
  - (* card *)
    destruct (actor ev) as [a|] eqn:Ha;
      [|apply Hsame; unfold cardsShown, sendsOff, movesTo, names;
        rewrite ?Hty, ?Ha; try done; by repeat case_match].
    destruct (ev_card ev) as [c|] eqn:Hc;
      [|apply Hsame; unfold cardsShown, sendsOff, movesTo;
        rewrite ?Hty, ?Hc; done].
    destruct (nonempty a) eqn:Hne;
      [|apply Hsame; unfold cardsShown, sendsOff, movesTo, names;
        rewrite ?Hty, ?Ha, ?Hc, ?Hne; done].
    destruct (players st !! a) as [ps|] eqn:Hps.
    + simpl. destruct (decide (a = k)) as [->|Hak].
      * rewrite lookup_insert_eq, Hps. constructor.
        unfold afterEvent, cardsShown, sendsOff, movesTo.
        rewrite Hty, Hc, (names_eq ev k k Ha Hne), bool_decide_eq_true_2 by done.
        simpl. by rewrite andb_true_r.
      * rewrite lookup_insert_ne by done.
        apply Hsame; [done| |unfold sendsOff; by rewrite Hty|
                      unfold movesTo; by rewrite Hty].
        unfold cardsShown. rewrite Hty, Hc, (names_eq ev a k Ha Hne).
        by rewrite bool_decide_eq_false_2.
    + destruct (decide (a = k)) as [->|Hak].
      * rewrite Hps. constructor.
      * apply Hsame; [done| |unfold sendsOff; by rewrite Hty|
                      unfold movesTo; by rewrite Hty].
        unfold cardsShown. rewrite Hty, Hc, (names_eq ev a k Ha Hne).
        by rewrite bool_decide_eq_false_2.
Qed.

Lemma step_afterEvent (i : nat) (ev : MatchEvent) (st : MatchState) (k : string) :
  option_Forall2 (afterEvent k ev) (players st !! k) (players (step i ev st) !! k).
Proof.
  unfold step.
  apply (applyEvent_afterEvent ev
           (with_clock (advanceClock (clock st) (minute ev) (added ev))
              (with_eventIndex i st)) k).
Qed.

Lemma replayFrom_fate (evs : list MatchEvent) (i : nat) (st : MatchState)
    (k : string) (ps : PlayerState) :
  players st !! k = Some ps ->
  exists ps', players (replayFrom i evs st) !! k = Some ps'
              /\ cards ps' = (cards ps ++ concat (cardsShown k <$> evs))%list
              /\ onPitch ps' = onPitch ps && forallb (fun ev => negb (sendsOff k ev)) evs
              /\ ps_position ps' = lastMove k (ps_position ps) evs.
Proof.
  revert i st ps. induction evs as [|ev rest IH]; intros i st ps Hk.
  - exists ps. simpl. by rewrite app_nil_r, andb_true_r.
  - pose proof (step_afterEvent i ev st k) as Hstep. rewrite Hk in Hstep.
    apply option_Forall2_Some in Hstep as (ps1 & Hps1 & _ & _ & Hpos & Hon & Hcards).
    destruct (IH (S i) (step i ev st) ps1 Hps1) as (ps' & Hps' & Hc & Ho & Hp).
    exists ps'. split; [done|]. rewrite Hc, Ho, Hp, Hcards, Hon, Hpos.
    rewrite fmap_cons. simpl. by rewrite app_assoc, andb_assoc.
Qed.

(** X21.  The card history of a player after a replay is the history before
    it followed by the cards of the card events naming that player, in the
    order of the script; no other event adds a card or removes one. *)
Theorem cards_follow_the_script (evs : list MatchEvent) (i : nat) (st : MatchState)
    (k : string) (ps : PlayerState) :
  players st !! k = Some ps ->
  exists ps', players (replayFrom i evs st) !! k = Some ps'
              /\ cards ps' = (cards ps ++ concat (cardsShown k <$> evs))%list.
Proof.
  intros Hk. destruct (replayFrom_fate evs i st k ps Hk) as (ps' & H1 & H2 & _).
  eauto.
Qed.

Lemma cards_follow_the_script_witness :
  exists ps',
    players (replayFrom 0 [booking 10 "Plato" yellow; booking 11 "Zeno" red;
                           exitOf 12 "Zeno"; booking 30 "Plato" red]
               (initializeState (virtueMatch []))) !! "Plato" = Some ps'
    /\ cards ps' = [yellow; red].
Proof.
  destruct (cards_follow_the_script
              [booking 10 "Plato" yellow; booking 11 "Zeno" red;
               exitOf 12 "Zeno"; booking 30 "Plato" red]
              0 (initializeState (virtueMatch [])) "Plato"
              (newPlayerState (mkPlayer "Plato" role_defender "v2") side_home
                 (mkPos (-30) 0)))
    as (ps' & H1 & H2); [vm_compute; reflexivity|].
  exists ps'. split; [exact H1 | exact H2].
Defined.

(** X22.  A player is on the pitch after a replay exactly when the player
    was on it before and no exit event of the replay names the player: cards,
    whatever their colour, never send anybody off. *)
Theorem on_pitch_unless_exited (evs : list MatchEvent) (i : nat) (st : MatchState)
    (k : string) (ps : PlayerState) :
  players st !! k = Some ps ->
  exists ps', players (replayFrom i evs st) !! k = Some ps'
              /\ onPitch ps'
                 = onPitch ps && forallb (fun ev => negb (sendsOff k ev)) evs.
Proof.
  intros Hk. destruct (replayFrom_fate evs i st k ps Hk) as (ps' & H1 & _ & H2 & _).
  eauto.
Qed.

Lemma on_pitch_unless_exited_witness :
  exists ps',
    players (replayFrom 0 [booking 10 "Plato" red; exitOf 12 "Zeno"]
               (initializeState (virtueMatch []))) !! "Plato" = Some ps'
    /\ onPitch ps' = true.
Proof.
  destruct (on_pitch_unless_exited [booking 10 "Plato" red; exitOf 12 "Zeno"]
              0 (initializeState (virtueMatch [])) "Plato"
              (newPlayerState (mkPlayer "Plato" role_defender "v2") side_home
                 (mkPos (-30) 0)))
    as (ps' & H1 & H2); [vm_compute; reflexivity|].
  exists ps'. split; [exact H1 | exact H2].
Defined.

(** X23.  The position of a player after a replay is the target of the last
    move event naming the player, and the position before the replay when no
    such event occurs: passes, goals and whistles move the ball, never a
    player. *)
Theorem position_follows_last_move (evs : list MatchEvent) (i : nat) (st : MatchState)
    (k : string) (ps : PlayerState) :
  players st !! k = Some ps ->
  exists ps', players (replayFrom i evs st) !! k = Some ps'
              /\ ps_position ps' = lastMove k (ps_position ps) evs.
Proof.
  intros Hk. destruct (replayFrom_fate evs i st k ps Hk) as (ps' & H1 & _ & _ & H2).
  eauto.
Qed.

Lemma position_follows_last_move_witness :
  exists ps',
    players (replayFrom 0
               [kickoff;
                withPosition (mkPos 10 20) (withActor "Plato" (bareEvent 3 move));
                passTo 5 "Socrates" "Plato";
                withPosition (mkPos 12 (-3)) (withActor "Plato" (bareEvent 7 move));
                goalBy 9 "Plato"]
               (initializeState (virtueMatch []))) !! "Plato" = Some ps'
    /\ ps_position ps' = mkPos 12 (-3).
Proof.
  destruct (position_follows_last_move
              [kickoff;
               withPosition (mkPos 10 20) (withActor "Plato" (bareEvent 3 move));
               passTo 5 "Socrates" "Plato";
               withPosition (mkPos 12 (-3)) (withActor "Plato" (bareEvent 7 move));
               goalBy 9 "Plato"]
              0 (initializeState (virtueMatch [])) "Plato"
              (newPlayerState (mkPlayer "Plato" role_defender "v2") side_home
                 (mkPos (-30) 0)))
    as (ps' & H1 & H2); [vm_compute; reflexivity|].
  exists ps'. split; [exact H1 | exact H2].
Defined.

(** * The schema reads back what was written *)

Lemma assoc_cons_eq {A : Type} (k : string) (v : A) (rest : list (string * A)) :
  assoc k ((k, v) :: rest) = Some v.
Proof. simpl. by rewrite String.eqb_refl. Qed.

Lemma assoc_cons_ne {A : Type} (k k' : string) (v : A) (rest : list (string * A)) :
  String.eqb k k' = false -> assoc k ((k', v) :: rest) = assoc k rest.
Proof. intros H. simpl. by rewrite H. Qed.

Lemma assoc_rawKey_eq {A : Type} (k : string) (f : A -> Raw) (o : option A)
    (rest : list (string * Raw)) :
  assoc k (rawKey k f o ++ rest)
  = match o with Some v => Some (f v) | None => assoc k rest end.
Proof. destruct o; simpl; [by rewrite String.eqb_refl | done]. Qed.

Lemma assoc_rawKey_ne {A : Type} (k k' : string) (f : A -> Raw) (o : option A)
    (rest : list (string * Raw)) :
  String.eqb k k' = false -> assoc k (rawKey k' f o ++ rest) = assoc k rest.
Proof. intros H. destruct o; simpl; [by rewrite H | done]. Qed.

Lemma assoc_rawKey_last_eq {A : Type} (k : string) (f : A -> Raw) (o : option A) :
  assoc k (rawKey k f o) = f <$> o.
Proof. destruct o; simpl; [by rewrite String.eqb_refl | done]. Qed.

Lemma assoc_rawKey_last_ne {A : Type} (k k' : string) (f : A -> Raw) (o : option A) :
  String.eqb k k' = false -> assoc k (rawKey k' f o) = None.
Proof. intros H. destruct o; simpl; [by rewrite H | done]. Qed.

(** Looking a literal key up in [eventProps]. *)
Ltac find_key :=
  unfold prop, eventProps; cbn [app];
  repeat first
    [ rewrite assoc_cons_eq
    | rewrite assoc_cons_ne by reflexivity
    | rewrite assoc_rawKey_eq
    | rewrite assoc_rawKey_ne by reflexivity
    | rewrite assoc_rawKey_last_eq
    | rewrite assoc_rawKey_last_ne by reflexivity ].

Lemma read_optional_string (k : string) (path : list string) (o : option string)
    (props : list (string * Raw)) :
  assoc k props = RString <$> o ->
  key k (z_optional z_string) path props = Success o.
Proof. unfold key, prop. intros ->. by destruct o. Qed.

Lemma read_optional_number (k : string) (checks : list ((Z -> bool) * string))
    (path : list string) (o : option Z) (props : list (string * Raw)) :
  assoc k props = RNumber <$> o ->
  (forall n, o = Some n -> Forall (fun c : (Z -> bool) * string => c.1 n = true) checks) ->
  key k (z_optional (z_number checks)) path props = Success o.
Proof.
  unfold key, prop. intros -> Hc. destruct o as [n|]; [|done]. simpl.
  unfold z_optional, z_number.
  replace (omap _ checks) with (@nil ZodIssue); [done|].
  specialize (Hc n eq_refl). induction Hc as [|c rest Hc _ IH]; [done|].
  simpl. by rewrite Hc.
Qed.

Lemma read_position (path : list string) (pos : PitchPosition) :
  onPitchArea pos -> PitchPositionSchema path (rawPosition pos) = Success pos.
Proof.
  intros [[H1 H2] [H3 H4]]. destruct pos as [px py]. simpl in *.
  unfold PitchPositionSchema, z_object, rawPosition, key, prop, z_number. simpl.
  repeat match goal with
         | |- context [?a <=? ?b] => destruct (Z.leb_spec a b); [|exfalso; lia]
         end.
  reflexivity.
Qed.

Lemma z_optional_position {A : Type} (s : Schema A) (path : list string)
    (pos : PitchPosition) :
  z_optional s path (rawPosition pos) = Success Some <@> s path (rawPosition pos).
Proof. reflexivity. Qed.

Lemma read_type (path : list string) (t : EventType) :
  EventTypeSchema path (RString (typeName t)) = Success t.
Proof. by destruct t. Qed.

Lemma read_card (path : list string) (c : CardType) :
  CardTypeSchema path (RString (cardName c)) = Success c.
Proof. by destruct c. Qed.

Lemma read_reason (path : list string) (r : string) :
  ReasonSchema path (RString r) = Success r.
Proof.
  unfold ReasonSchema, WhistleReason, z_enum.
  destruct (assoc r _) as [v|] eqn:Hr; [|done].
  simpl in Hr.
  repeat match type of Hr with
         | (if String.eqb r ?k then _ else _) = _ =>
             destruct (String.eqb_spec r k) as [->|_]; [by injection Hr as <-|]
         end.
  done.
Qed.

Lemma read_event (path : list string) (ev : MatchEvent) :
  eventInRange ev -> MatchEventSchema path (rawEvent ev) = Success ev.
Proof.
  intros ([Hm1 Hm2] & Hadded & Hpos).
  change (rawEvent ev) with (RObject (eventProps ev)).
  unfold MatchEventSchema, z_object.
  rewrite (read_optional_string "actor" _ (actor ev)) by (find_key; by destruct (actor ev)).
  rewrite (read_optional_string "text" _ (text ev)) by (find_key; by destruct (text ev)).
  rewrite (read_optional_string "tone" _ (tone ev)) by (find_key; by destruct (tone ev)).
  rewrite (read_optional_string "from" _ (from ev)) by (find_key; by destruct (from ev)).
  rewrite (read_optional_string "to" _ (to ev)) by (find_key; by destruct (to ev)).
  rewrite (read_optional_string "direction" _ (direction ev)) by (by find_key).
  rewrite (read_optional_number "added" _ _ (added ev));
    [|find_key; by destruct (added ev)
     |intros n Hn; repeat constructor; simpl; apply Z.leb_le; by apply Hadded].
  rewrite (read_optional_number "pause_ms" _ _ (pause_ms ev));
    [|find_key; by destruct (pause_ms ev) | intros n Hn; constructor].
  assert (Hminute : key "minute" (z_number [num_min 0; num_max 90]) path (eventProps ev)
                    = Success (minute ev)).
  { unfold key. find_key. simpl. unfold z_number. simpl.
    destruct (Z.leb_spec 0 (minute ev)); [|exfalso; lia].
    destruct (Z.leb_spec (minute ev) 90); [|exfalso; lia]. done. }
  assert (Htype : key "type" EventTypeSchema path (eventProps ev) = Success (type ev)).
  { unfold key. find_key. apply read_type. }
  assert (Hposition : key "position" (z_optional PitchPositionSchema) path (eventProps ev)
                      = Success (position ev)).
  { unfold key. find_key. destruct (position ev) as [pos|] eqn:E; [|done].
    change (z_optional PitchPositionSchema (path ++ ["position"])%list (rawPosition pos)
            = Success (Some pos)).
    rewrite z_optional_position, read_position by auto. done. }
  assert (Hcard : key "card" (z_optional CardTypeSchema) path (eventProps ev)
                  = Success (ev_card ev)).
  { unfold key. find_key. destruct (ev_card ev) as [c|]; [|done].
    change (z_optional CardTypeSchema (path ++ ["card"])%list (RString (cardName c))
            = Success (Some c)).
    unfold z_optional. cbv beta iota. by rewrite read_card. }
  assert (Hreason : key "reason" (z_optional ReasonSchema) path (eventProps ev)
                    = Success (reason ev)).
  { unfold key. find_key. destruct (reason ev) as [r|]; [|done].
    change (z_optional ReasonSchema (path ++ ["reason"])%list (RString r)
            = Success (Some r)).
    unfold z_optional. cbv beta iota. by rewrite read_reason. }
  rewrite Hminute, Htype, Hposition, Hcard, Hreason.
  unfold ap. by destruct ev.
Qed.

Lemma prop_cons_eq (k : string) (v : Raw) (rest : list (string * Raw)) :
  prop k ((k, v) :: rest) = v.
Proof. unfold prop. by rewrite assoc_cons_eq. Qed.

Lemma prop_cons_ne (k k' : string) (v : Raw) (rest : list (string * Raw)) :
  String.eqb k k' = false -> prop k ((k', v) :: rest) = prop k rest.
Proof. intros H. unfold prop. by rewrite assoc_cons_ne. Qed.

Lemma read_player (path : list string) (p : Player) :
  PlayerSchema path (rawPlayer p) = Success p.
Proof. destruct p as [n [] v]; reflexivity. Qed.

Lemma read_items {A : Type} (s : Schema A) (enc : A -> Raw) (P : A -> Prop)
    (path : list string) (i : nat) (l : list A) :
  (forall p v, P v -> s p (enc v) = Success v) ->
  Forall P l ->
  parseItems s path i (map enc l) = Success l.
Proof.
  intros Hs Hl. revert i. induction Hl as [|v l Hv _ IH]; intros i; simpl; [done|].
  by rewrite Hs, IH.
Qed.

Lemma jsLength_ascii (s : string) :
  isAscii s = true -> jsLength s = String.length s.
Proof.
  induction s as [|c s IH]; simpl; [done|].
  intros [Hc Hs]%andb_prop. rewrite (IH Hs). unfold utf16Units.
  by rewrite Hc.
Qed.

Lemma read_team (path : list string) (t : Team) :
  isAscii (code t) = true /\ String.length (code t) = 3%nat ->
  length (field t) = 4%nat ->
  TeamSchema path (rawTeam t) = Success (upperCode t).
Proof.
  intros [Ha Hc] Hf. rewrite <- (jsLength_ascii _ Ha) in Hc.
  unfold TeamSchema, z_object, rawTeam, key.
  change (prop "code" _) with (RString (code t)).
  change (prop "name" _) with (RString (team_name t)).
  change (prop "tender" _) with (rawPlayer (tender t)).
  change (prop "field" _) with (RArray (map rawPlayer (field t))).
  rewrite read_player. unfold z_code, z_array.
  rewrite length_map, Hc, Hf. simpl.
  rewrite (read_items PlayerSchema rawPlayer (fun _ => True));
    [done | intros; apply read_player | by apply Forall_forall].
Qed.

Lemma read_official (path : list string) (o : Official) :
  OfficialSchema path (rawOfficial o) = Success o.
Proof. by destruct o. Qed.

(** X24.  The schema reads back what is written: the document of a typed
    script that is within the declared ranges and forms, with team codes of
    three ASCII characters, is accepted, and the parse returns that very
    script with the two team codes put in upper case. *)
Theorem schema_round_trip (s : MatchScript) :
  inSchema s -> safeParse (rawScript s) = Success (upperCodes s).
Proof.
  intros (Hid & Hseason & Hch & Hca & Hfh & Hfa & Hevs).
  unfold safeParse, MatchScriptSchema, z_object, rawScript, key.
  change (prop "events" _) with (RArray (map rawEvent (events s))).
  match goal with
  | |- context [MatchMetaSchema ?p (prop "match" ?l)] =>
      assert (Hmeta : MatchMetaSchema p (prop "match" l) = Success (match_ (upperCodes s)))
  end.
  { rewrite prop_cons_eq. unfold MatchMetaSchema, z_object, key.
    repeat first [rewrite prop_cons_eq | rewrite prop_cons_ne by reflexivity].
    rewrite !read_team by done.
    unfold OfficialsSchema, z_object, key.
    repeat first [rewrite prop_cons_eq | rewrite prop_cons_ne by reflexivity].
    rewrite !read_official.
    unfold z_id, z_number, z_string. rewrite Hid. simpl.
    destruct (Z.ltb_spec 0 (season (match_ s))); [|exfalso; lia].
    unfold ap. simpl. by destruct (officials (match_ s)). }
  rewrite Hmeta. unfold z_array. simpl checked.
  rewrite (read_items MatchEventSchema rawEvent eventInRange);
    [done | intros; by apply read_event | done].
Qed.

Lemma schema_round_trip_witness :
  safeParse (rawScript goalThenKickoff) = Success (upperCodes goalThenKickoff).
Proof.
  apply (schema_round_trip goalThenKickoff).
  split; [reflexivity|]. split; [reflexivity|].
  split; [split; reflexivity|]. split; [split; reflexivity|].
  split; [reflexivity|]. split; [reflexivity|].
  unfold goalThenKickoff, virtueMatch, sampleScript. cbn [events].
  repeat (apply Forall_cons; split;
          [split; [simpl; lia | split; intros ? H; discriminate H]|]).
  constructor.
Defined.
